(** * ChatServer: session registry, presence notifications and message fan-out

    A shallow embedding of [lib/ChatServer.js].  The server keeps one piece
    of shared state, the [Map] from login to the [Set] of sockets
    authenticated under it, plus a per-socket [CLIENT_DATA] record holding the
    login of the socket ([null] until the first successful authentication).
    Every socket.io handler and every promise callback runs to completion on
    the single JavaScript thread, so each of them is one atomic transition. *)

From stdpp Require Import gmap strings list fin_maps fin_sets.

#[local] Set Warnings "-clear-no-such-hyp".
Open Scope string_scope.

(** ** Data model *)

(** A socket is an object compared by identity ([===]); its identity is a
    number here. *)
Abbreviation socket := nat.

(** What a property of a payload can hold, [null] apart.  The handlers pass
    the [login] of a payload on as it came, whatever its type.  Of a number
    the server uses only [===], the key equality of [Map] and truthiness;
    the first two agree on what JSON can express ([NaN] is not among it, and
    [0] and [-0] are equal for both), and [0] is the falsy number: [n]
    identifies the number, with [0] for zero.  An object or array is compared
    by reference; two payloads never share one, which the runs below do not
    rely on. *)
Inductive jsvalue :=
| JsUndefined               (* the property is missing *)
| JsBoolean (b : bool)
| JsNumber (n : Z)
| JsString (s : string)
| JsObject (ref : nat).

#[global] Instance jsvalue_eq_dec : EqDecision jsvalue.
Proof. solve_decision. Defined.

Definition jsvalue_encode (v : jsvalue) : unit + (bool + (Z + (string + nat))) :=
  match v with
  | JsUndefined => inl ()
  | JsBoolean b => inr (inl b)
  | JsNumber n => inr (inr (inl n))
  | JsString s => inr (inr (inr (inl s)))
  | JsObject ref => inr (inr (inr (inr ref)))
  end.

Definition jsvalue_decode (x : unit + (bool + (Z + (string + nat)))) : jsvalue :=
  match x with
  | inl _ => JsUndefined
  | inr (inl b) => JsBoolean b
  | inr (inr (inl n)) => JsNumber n
  | inr (inr (inr (inl s))) => JsString s
  | inr (inr (inr (inr ref))) => JsObject ref
  end.

#[global] Instance jsvalue_countable : Countable jsvalue :=
  inj_countable' jsvalue_encode jsvalue_decode
    (λ v, match v with
          | JsUndefined | JsBoolean _ | JsNumber _ | JsString _ | JsObject _ =>
              eq_refl
          end).

(** Any value of a payload: [None] is [null]. *)
Abbreviation jsany := (option jsvalue).

(** The value of [socket[CLIENT_DATA].login], also used as key of the
    [_userSockets] map: [None] is [null], the value the connection handler
    writes; after an authentication it is the [login] of the payload. *)
Abbreviation jslogin := (option jsvalue).

(** A string, as a value. *)
Definition str (s : string) : jsany := Some (JsString s).

(** The [error] a rejected authenticator promise carries; the handlers read
    its [name], [code] and [message]. *)
Record js_error := JsError {
  err_name : string;
  err_code : string;
  err_message : string
}.

(** The objects passed to [emit]. *)
Inductive message :=
| MsgPresence (login : jslogin)               (* { login } *)
| MsgChat (from : jslogin) (body : jsany)     (* { from, body } *)
| MsgSuccess (login : jslogin)                (* { success: true, login } *)
| MsgFailure (error : js_error).              (* { success: false, error: {...} } *)

#[global] Instance js_error_eq_dec : EqDecision js_error.
Proof. solve_decision. Defined.

#[global] Instance message_eq_dec : EqDecision message.
Proof. solve_decision. Defined.

(** [message.senderSocket]: none of the objects the server builds has this
    property, so it reads as [undefined]. *)
Definition senderSocket (m : message) : option socket := None.

(** What a handler does to the outside world, in program order.
    [Broadcast type msg rs] is one call of [_broadcastMessage]: it stands for
    [r.emit(type, msg)] for each [r] of [rs], in that order. *)
Inductive effect :=
| Emit (to : socket) (type : string) (msg : message)
| Broadcast (type : string) (msg : message) (recipients : list socket)
| Log (level : string) (event : string).

(** The individual [emit] calls of an effect list, as [(recipient, type,
    message)]. *)
Definition emissions_of (e : effect) : list (socket * string * message) :=
  match e with
  | Emit to type msg => [(to, type, msg)]
  | Broadcast type msg rs => (λ r, (r, type, msg)) <$> rs
  | Log _ _ => []
  end.

Definition emissions (out : list effect) : list (socket * string * message) :=
  out ≫= emissions_of.

(** The server object: [this._userSockets] and the [CLIENT_DATA] of every
    socket (a socket absent from [clientLogin] has [login: null]). *)
Record ChatServer := mkChatServer {
  userSockets : gmap jslogin (gset socket);
  clientLogin : gmap socket jsvalue
}.

Definition emptyServer : ChatServer := mkChatServer ∅ ∅.

(** JavaScript truthiness: [null], [undefined], [false], [0] and the empty
    string are falsy. *)
Definition truthy (v : jsany) : bool :=
  match v with
  | None => false
  | Some JsUndefined => false
  | Some (JsBoolean b) => b
  | Some (JsNumber n) => negb (n =? 0)%Z
  | Some (JsString s) => negb (String.eqb s "")
  | Some (JsObject _) => true
  end.

(** Reading a property of [null] or [undefined] raises a [TypeError]. *)
Definition nullish (v : jsany) : bool :=
  match v with
  | None | Some JsUndefined => true
  | Some _ => false
  end.

(** [Boolean(this._userSockets.get(login))]: a [Set] object is truthy
    whatever its size, [undefined] is not. *)
Definition hasSockets (login : jslogin) (self : ChatServer) : bool :=
  bool_decide (is_Some (userSockets self !! login)).

(** ** Registry operations *)

Definition _unregisterSocket (socket : socket) (self : ChatServer) : ChatServer :=
  let login := clientLogin self !! socket in
  if negb (truthy login) then self
  else
    let loginSockets := default ∅ (userSockets self !! login) in
    let loginSockets := loginSockets ∖ {[socket]} in
    if bool_decide (0 < size loginSockets) then
      mkChatServer (<[login := loginSockets]> (userSockets self)) (clientLogin self)
    else
      mkChatServer (delete login (userSockets self)) (clientLogin self).

Definition _registerSocket (socket : socket) (self : ChatServer) : ChatServer :=
  let login := clientLogin self !! socket in
  let loginSockets := default ∅ (userSockets self !! login) in
  let loginSockets := loginSockets ∪ {[socket]} in
  mkChatServer (<[login := loginSockets]> (userSockets self)) (clientLogin self).

(** [socket[CLIENT_DATA].login = login]: the entry of the socket becomes
    [login], so it goes away when [login] is [null]. *)
Definition setLogin (socket : socket) (login : jslogin) (self : ChatServer) : ChatServer :=
  mkChatServer (userSockets self)
    (partial_alter (λ _, login) socket (clientLogin self)).

(** ** Broadcasting *)

Definition allSockets (recipientSocket : socket) : bool := true.

(** The recipients of one [_broadcastMessage] call: every set of the map is
    spread, filtered, and the socket equal to [message.senderSocket] is
    skipped.  A socket that sits in two sets is listed twice.  The map and
    the sets are traversed in the order of their representation here, not in
    insertion order; the statements below speak about membership only. *)
Definition recipients (msg : message) (socketFilter : socket → bool)
    (self : ChatServer) : list socket :=
  map_to_list (userSockets self) ≫= λ entry,
    List.filter (λ r, negb (bool_decide (Some r = senderSocket msg)))
      (List.filter socketFilter (elements entry.2)).

Definition _broadcastMessage (type : string) (msg : message)
    (socketFilter : socket → bool) (self : ChatServer) : effect :=
  Broadcast type msg (recipients msg socketFilter self).

(** [socket[CLIENT_DATA].login !== login] *)
Definition otherUser (login : jslogin) (self : ChatServer) (socket : socket) : bool :=
  negb (bool_decide (clientLogin self !! socket = login)).

Definition _notifyUserJoin (login : jslogin) (self : ChatServer) : effect :=
  _broadcastMessage "join" (MsgPresence login) (otherUser login self) self.

Definition _notifyUserLeave (login : jslogin) (self : ChatServer) : effect :=
  _broadcastMessage "leave" (MsgPresence login) (otherUser login self) self.

(** ** Authorization *)

Definition _authorizeSocket (login : jslogin) (socket : socket)
    (self : ChatServer) : ChatServer * list effect :=
  let previousLogin := clientLogin self !! socket in
  let currentLoginHadSocketsBefore := hasSockets login self in
  let self := _unregisterSocket socket self in
  let self := setLogin socket login self in
  let self := _registerSocket socket self in
  let left :=
    if truthy previousLogin && negb (bool_decide (previousLogin = login))
       && negb (hasSockets previousLogin self)
    then [_notifyUserLeave previousLogin self] else [] in
  let joined :=
    if negb currentLoginHadSocketsBefore
    then [_notifyUserJoin (clientLogin self !! socket) self] else [] in
  (self, (left ++ joined)%list).

(** ** Event handlers *)

(** How the promise returned by the authenticator settles.  The credential
    store is an external collaborator: its answer is an input of the
    transition. *)
Inductive settled :=
| Fulfilled
| Rejected (error : js_error).

(** How a handler ends: it returns, or an exception leaves it. *)
Inductive completion :=
| Returns
| Throws (exception : string).

Record outcome := mkOutcome {
  server_after : ChatServer;
  effects : list effect;
  completed : completion
}.

(** [{ name: error.name, code: error.code, message: error.message }] *)
Definition errorReply (error : js_error) : message :=
  MsgFailure (JsError (err_name error) (err_code error) (err_message error)).

(** [self._app.on('connection', ...)]: [socket[CLIENT_DATA] = { login: null }] *)
Definition onConnection (socket : socket) (self : ChatServer) : outcome :=
  mkOutcome (mkChatServer (userSockets self) (delete socket (clientLogin self)))
    [] Returns.

(** [socket.on('chat', function({ body }) ...)].  On the guard branch
    [body.length] is evaluated to build the argument of [logger.warn]; with
    [body] undefined or [null] that is a [TypeError], raised before anything
    is logged. *)
Definition onChat (socket : socket) (body : jsany) (self : ChatServer) : outcome :=
  let login := clientLogin self !! socket in
  if negb (truthy login) then
    if nullish body then mkOutcome self [] (Throws "TypeError")
    else mkOutcome self [Log "warn" "message.unauthenticated"] Returns
  else
    mkOutcome self
      [Log "debug" "message";
       _broadcastMessage "chat" (MsgChat login body)
         (λ recipientSocket, negb (bool_decide (recipientSocket = socket))) self]
      Returns.

(** The two callbacks of [authenticator.authenticate(login, password).then]. *)
Definition onAuth (socket : socket) (login password : jsany)
    (result : settled) (self : ChatServer) : outcome :=
  match result with
  | Fulfilled =>
      let '(self', out) := _authorizeSocket login socket self in
      mkOutcome self' (Emit socket "auth" (MsgSuccess login) :: out) Returns
  | Rejected error =>
      mkOutcome self [Emit socket "auth" (errorReply error)] Returns
  end.

(** The two callbacks of [authenticator.register(login, password).then]. *)
Definition onRegister (socket : socket) (login password : jsany)
    (result : settled) (self : ChatServer) : outcome :=
  match result with
  | Fulfilled =>
      mkOutcome self [Emit socket "register" (MsgSuccess login)] Returns
  | Rejected error =>
      mkOutcome self [Emit socket "register" (errorReply error)] Returns
  end.

(** [socket.on('disconnect', ...)] *)
Definition onDisconnect (socket : socket) (self : ChatServer) : outcome :=
  let self := _unregisterSocket socket self in
  let login := clientLogin self !! socket in
  let out :=
    if truthy login && negb (hasSockets login self)
    then [_notifyUserLeave login self] else [] in
  mkOutcome self out Returns.

(** [function({ body })] and [function({ login, password })] called with
    [null] or [undefined]: binding the parameter pattern raises a
    [TypeError] before the body of the handler runs. *)
Definition onMalformed (self : ChatServer) : outcome :=
  mkOutcome self [] (Throws "TypeError").

(** ** Events and runs *)

(** One transition of the server.  A [ChatEvent] is an inbound [chat] event
    with the [body] of its payload.  An [AuthEvent] or [RegisterEvent] is the
    moment the promise of the authenticator for a request settles and one of
    the two callbacks of [then] runs, with the [login] and [password] the
    payload of the request had; the handler of the inbound event itself only
    calls the authenticator.  With these the payload is one whose
    properties the parameter pattern of the handler can read, a missing
    property as [undefined].  [Malformed] is an inbound event of [type]
    [chat], [auth] or [register] whose payload is [null] or missing. *)
Inductive event :=
| Connection (socket : socket)
| ChatEvent (socket : socket) (body : jsany)
| AuthEvent (socket : socket) (login password : jsany) (result : settled)
| RegisterEvent (socket : socket) (login password : jsany) (result : settled)
| Disconnect (socket : socket)
| Malformed (socket : socket) (type : string).

Definition event_socket (ev : event) : socket :=
  match ev with
  | Connection s | ChatEvent s _ | AuthEvent s _ _ _
  | RegisterEvent s _ _ _ | Disconnect s | Malformed s _ => s
  end.

Definition step (ev : event) (self : ChatServer) : outcome :=
  match ev with
  | Connection s => onConnection s self
  | ChatEvent s body => onChat s body self
  | AuthEvent s login password result => onAuth s login password result self
  | RegisterEvent s login password result => onRegister s login password result self
  | Disconnect s => onDisconnect s self
  | Malformed s _ => onMalformed self
  end.

(** The server after a sequence of events, from the state the constructor
    leaves. *)
Definition run (evs : list event) : ChatServer :=
  fold_left (λ self ev, server_after (step ev self)) evs emptyServer.

(** The order of events the transport and the promises allow.  A socket
    object is handed to the ['connection'] callback once; its inbound events
    come after that and none after its ['disconnect'], which comes once.  The
    promise of an authentication or registration belongs to a request the
    socket has sent, so the socket has connected before; but it is the
    authenticator that settles it, and nothing makes that happen before the
    socket disconnects.  The state is the pair of the sockets seen so far and
    the sockets still connected. *)
Definition lifecycle_step (lc : gset socket * gset socket) (ev : event)
    : option (gset socket * gset socket) :=
  let '(seen, live) := lc in
  match ev with
  | Connection s =>
      if bool_decide (s ∈ seen) then None else Some ({[s]} ∪ seen, {[s]} ∪ live)
  | Disconnect s =>
      if bool_decide (s ∈ live) then Some (seen, live ∖ {[s]}) else None
  | ChatEvent s _ | Malformed s _ =>
      if bool_decide (s ∈ live) then Some lc else None
  | AuthEvent s _ _ _ | RegisterEvent s _ _ _ =>
      if bool_decide (s ∈ seen) then Some lc else None
  end.

Definition lifecycle (evs : list event) : option (gset socket * gset socket) :=
  fold_left (λ lc ev, lc ≫= λ lc, lifecycle_step lc ev) evs (Some (∅, ∅)).

Definition well_formed (evs : list event) : bool :=
  bool_decide (is_Some (lifecycle evs)).

(** The sockets of a login in the registry: [this._userSockets.get(login)],
    an absent key read as the empty set. *)
Definition connections (login : jslogin) (self : ChatServer) : gset socket :=
  default ∅ (userSockets self !! login).

(** The sockets that occur in some set of the registry. *)
Definition registered (socket : socket) (self : ChatServer) : Prop :=
  ∃ login, socket ∈ connections login self.

(** A [_broadcastMessage] call of the presence event [type] (["join"] or
    ["leave"]) for a login, and the number of such calls in an effect
    list. *)
Definition is_presence (type : string) (login : jslogin) (e : effect) : bool :=
  match e with
  | Broadcast type' (MsgPresence login') _ =>
      String.eqb type' type && bool_decide (login' = login)
  | _ => false
  end.

Definition presence_count (type : string) (login : jslogin) (out : list effect) : nat :=
  length (List.filter (is_presence type login) out).

(** ** Vocabulary of the statements *)

(** No key of the map is bound to an empty set. *)
Definition no_empty_sets (self : ChatServer) : Prop :=
  ∀ k S, userSockets self !! k = Some S → S ≠ ∅.

(** Every connected socket with a truthy login sits in the set of that
    login. *)
Definition live_registered (live : gset socket) (self : ChatServer) : Prop :=
  ∀ s, s ∈ live → truthy (clientLogin self !! s) = true →
    s ∈ connections (clientLogin self !! s) self.

(** The set of a login goes from empty to non-empty, resp. from non-empty
    to empty, between two states. *)
Definition appears (login : jslogin) (before after : ChatServer) : bool :=
  bool_decide (connections login before = ∅)
  && negb (bool_decide (connections login after = ∅)).

Definition vanishes (login : jslogin) (before after : ChatServer) : bool :=
  negb (bool_decide (connections login before = ∅))
  && bool_decide (connections login after = ∅).

(** Everything the handlers did during a sequence of events started in
    [self], in order, and the number of transitions of that sequence that
    satisfy [change]. *)
Fixpoint observed (self : ChatServer) (evs : list event) : list effect :=
  match evs with
  | [] => []
  | ev :: evs =>
      effects (step ev self) ++ observed (server_after (step ev self)) evs
  end%list.

Fixpoint transitions (change : ChatServer → ChatServer → bool)
    (self : ChatServer) (evs : list event) : nat :=
  match evs with
  | [] => 0
  | ev :: evs =>
      (if change self (server_after (step ev self)) then 1 else 0)
      + transitions change (server_after (step ev self)) evs
  end.

(** Whether a socket is connected after a run. *)
Definition is_live (evs : list event) (s : socket) : bool :=
  match lifecycle evs with
  | Some (_, live) => bool_decide (s ∈ live)
  | None => false
  end.

(** The socket an event unregisters is where its login says: in the set of
    its login, if that is truthy. *)
Definition socket_in_place (ev : event) (self : ChatServer) : Prop :=
  match ev with
  | AuthEvent s _ _ Fulfilled | Disconnect s =>
      truthy (clientLogin self !! s) = true →
      s ∈ connections (clientLogin self !! s) self
  | _ => True
  end.

(** The sequences in which every successful authentication settles while
    its socket is still connected.  Nothing in the server or in the transport
    makes a run be one of these. *)
Definition settles_in_time (evs : list event) : Prop :=
  ∀ before s login password rest,
    evs = (before ++ AuthEvent s login password Fulfilled :: rest)%list →
    is_live before s = true.

(** A successful authentication of the socket settled after its
    disconnect. *)
Definition settled_after_disconnect (evs : list event) (s : socket) : Prop :=
  ∃ before between login password rest,
    evs = (before ++ Disconnect s :: between
             ++ AuthEvent s login password Fulfilled :: rest)%list.

(** The number of times the socket is sent [msg] as an event of [type]. *)
Definition received (to : socket) (type : string) (msg : message)
    (out : list effect) : nat :=
  length (List.filter
            (λ em : socket * string * message,
               bool_decide (em.1.1 = to) && String.eqb em.1.2 type
               && bool_decide (em.2 = msg))
            (emissions out)).

(** The emissions that are results of an authentication or registration. *)
Definition is_result (em : socket * string * message) : bool :=
  String.eqb em.1.2 "auth" || String.eqb em.1.2 "register".

Definition resultMessage (login : jslogin) (result : settled) : message :=
  match result with
  | Fulfilled => MsgSuccess login
  | Rejected error => errorReply error
  end.

(** In a run where no authentication succeeds under a falsy login, a socket
    sits in the set of its own login and in no other. *)
Definition registry_consistent (seen live : gset socket) (self : ChatServer) : Prop :=
  live ⊆ seen
  ∧ (∀ s k, s ∈ connections k self →
       s ∈ seen ∧ k = clientLogin self !! s ∧ truthy k = true).

Definition truthy_login (ev : event) : Prop :=
  match ev with
  | AuthEvent _ login _ Fulfilled => truthy login = true
  | _ => True
  end.

(** * The LevelDB authenticator *)

(** [LevelAuthenticator]: accounts live in a LevelDB store under the key
    ["users:" + login], the value being the bcrypt hash of the password.
    [register] chains every call on [_registrationLock], a promise, with
    [then] and one callback; [authenticate] reads the store directly. *)

Module LevelAuthenticator.

Section authenticator.

(** [bcrypt.hash], as a function of the salt it draws and of the password,
    and [bcrypt.compare] of a password with a hash. *)
Variable hash : string → string → string.
Variable compare : string → string → bool.

Definition userPrefix : string := "users:".

Definition userKey (login : string) : string := userPrefix ++ login.

(** The reasons for which the promises of the authenticator are rejected. *)
Inductive failure :=
| UserAlreadyExists              (* new Error('User already exists') *)
| PasswordInvalid                (* new Error('Password invalid') *)
| NotFoundError                  (* db.get of a key that is not in the store *)
| OtherError (message : string). (* any other failure of the store or of bcrypt *)

Inductive settlement :=
| Ok
| Err (error : failure).

(** One call [register(login, password)]. *)
Record request := Request {
  login : string;
  password : string
}.

(** The authenticator.  [db] is the store.  The promises returned by
    [register] form a chain, each one made by [then] from the one before:
    [settled] holds those that have settled, with their results, in order;
    [running] is the one whose callback has run, has found the login free and
    waits for [db.put], with the hash it will write; [waiting] holds those
    whose callback has not run yet.  [chain] is the state of the last settled
    promise of the chain: [None] when it is fulfilled (as the initial
    [when.resolve()] is), [Some e] when it is rejected with [e]. *)
Record authenticator := Authenticator {
  db : gmap string string;
  chain : option failure;
  running : option (request * string);
  waiting : list request;
  settled : list (request * settlement)
}.

(** What happens next.  [Register]: a call of [register].  [Start]: the
    promise before the first waiting one has settled and the reaction of the
    waiting one runs, to the point where [when.all] has settled; [salt] is
    the salt of [bcrypt.hash] and [fault] a failure of [bcrypt.hash] or a
    failure of [db.get] other than not-found, if any.  [Put]: [db.put] of the
    running step settles, with a failure of the store if any.
    [Authenticate]: a call of [authenticate]. *)
Inductive action :=
| Register (login password : string)
| Start (salt : string) (fault : option string)
| Put (fault : option string)
| Authenticate (login password : string).

(** [authenticate(login, password)], answered by the store as it is. *)
Definition authenticate (login password : string) (self : authenticator)
    : settlement :=
  match db self !! userKey login with
  | None => Err NotFoundError
  | Some passwordHash =>
      if compare password passwordHash then Ok else Err PasswordInvalid
  end.

(** A promise of the chain settles with [result]. *)
Definition settle (r : request) (result : settlement) (self : authenticator)
    : authenticator :=
  Authenticator (db self)
    (match result with Ok => None | Err e => Some e end)
    None (tail (waiting self)) (settled self ++ [(r, result)]).

(** One step.  [then] with a fulfilment callback only passes a rejection of
    the promise before on to the new promise without running the callback.
    When the callback runs, a key found by [db.get] makes it throw, a fault
    rejects, and otherwise the hash is written by [db.put]; nothing else
    starts until that has settled. *)
Definition step (a : action) (self : authenticator) : authenticator :=
  match a with
  | Register login password =>
      Authenticator (db self) (chain self) (running self)
        (waiting self ++ [Request login password]) (settled self)
  | Start salt fault =>
      match running self, waiting self with
      | None, r :: rest =>
          match chain self with
          | Some e => settle r (Err e) self
          | None =>
              match fault with
              | Some message => settle r (Err (OtherError message)) self
              | None =>
                  match db self !! userKey (login r) with
                  | Some _ => settle r (Err UserAlreadyExists) self
                  | None =>
                      Authenticator (db self) None
                        (Some (r, hash salt (password r))) rest (settled self)
                  end
              end
          end
      | _, _ => self
      end
  | Put fault =>
      match running self with
      | Some (r, passwordHash) =>
          match fault with
          | Some message =>
              Authenticator (db self) (Some (OtherError message)) None
                (waiting self) (settled self ++ [(r, Err (OtherError message))])
          | None =>
              Authenticator (<[userKey (login r) := passwordHash]> (db self))
                None None (waiting self) (settled self ++ [(r, Ok)])
          end
      | None => self
      end
  | Authenticate _ _ => self
  end.

(** The authenticator the constructor builds over a store. *)
Definition init (db0 : gmap string string) : authenticator :=
  Authenticator db0 None None [] [].

Definition exec (acts : list action) (self : authenticator) : authenticator :=
  fold_left (λ self a, step a self) acts self.

(** The [register] calls of a schedule, in call order. *)
Definition calls (acts : list action) : list request :=
  acts ≫= λ a, match a with Register l p => [Request l p] | _ => [] end.

(** The number of fulfilled registrations of a login. *)
Definition fulfilled (l : string) (results : list (request * settlement)) : nat :=
  length (List.filter
            (λ x, match x.2 with Ok => String.eqb (login x.1) l | Err _ => false end)
            results).



(** What holds in every state the authenticator reaches from [init db0]. *)
Record reachable_invariant (db0 : gmap string string) (self : authenticator)
    : Prop := {
  running_fresh : ∀ r h, running self = Some (r, h) →
    db self !! userKey (login r) = None ∧ ∃ salt, h = hash salt (password r);
  running_unpoisoned : ∀ x, running self = Some x → chain self = None;
  store_kept : ∀ key h, db0 !! key = Some h → db self !! key = Some h;
  store_origin : ∀ key h, db self !! key = Some h →
    db0 !! key = Some h
    ∨ ∃ r salt, (r, Ok) ∈ settled self ∧ key = userKey (login r)
                ∧ h = hash salt (password r);
  fulfilled_stored : ∀ r, (r, Ok) ∈ settled self →
    db0 !! userKey (login r) = None
    ∧ ∃ salt, db self !! userKey (login r) = Some (hash salt (password r));
  fulfilled_once : ∀ l, (fulfilled l (settled self) ≤ 1)%nat;
  chain_fulfilled : chain self = None → ∀ x, x ∈ settled self → x.2 = Ok;
  chain_rejected : ∀ e, chain self = Some e →
    ∃ oks errs, settled self = (oks ++ errs)%list
      ∧ Forall (λ x, x.2 = Ok) oks ∧ errs ≠ []
      ∧ Forall (λ x, x.2 = Err e) errs
}.

End authenticator.

End LevelAuthenticator.

(** * The command-line client *)

(** The client that talks the whole protocol of the server (it has the
    [/register] command).  Its state is [clientStatus]; what it does is
    emit events on its socket and write to the terminal.  Of the terminal
    the lines written, the prompts and the exit are recorded, not the cursor
    movements around them ([clearLine], [cursorTo], the [prompt(true)] inside
    [writeLine]).  The handler of the socket's ['error'] event, which only
    writes, is left out. *)

Module ChatClient.

Import Stdlib.Strings.Ascii.

Section client.

(** [commands[commandName]] also finds what the object literal inherits
    from [Object.prototype].  For such a name, the function gives what
    calling the inherited value with [apply(undefined, args)] does: [None]
    when the call returns, the message of the exception when it throws.  For
    any other name it is not consulted. *)
Variable inherited : string → option (list string → option string).

(** [{ login, password }]; a missing command argument is [undefined]. *)
Record credentials_t := Credentials {
  login : option string;
  password : option string
}.

Record clientStatus := ClientStatus {
  connected : bool;
  authenticated : bool;
  credentials : option credentials_t
}.

Definition initialStatus : clientStatus := ClientStatus false false None.

(** The payload of an emitted event. *)
Inductive payload :=
| AuthPayload (c : option credentials_t)           (* clientStatus.credentials *)
| RegisterPayload (login password : option string) (* { login, password } *)
| ChatPayload (body : string).                     (* { body } *)

(** The first argument of [writeLine]: pieces of text, each with the colour
    applied to it if any. *)
Abbreviation styled := (list (option string * string)).

Inductive output :=
| Emit (type : string) (data : payload)
| WriteLine (line : styled) (args : list (option string))
| Write (text : string)
| Prompt
| SetPrompt (prompt : string)
| Close
| Exit.

(** How a piece of code ends: it returns, an exception leaves it, or the
    process has exited. *)
Inductive completion :=
| Returns
| Throws (message : string)
| Exited.

Record outcome := Outcome {
  status_after : clientStatus;
  outputs : list output;
  completed : completion
}.

Definition defaultPrompt : string := "> ".

(** [s.slice(1)] and [s.split(' ')] *)
Definition slice1 (s : string) : string :=
  match s with
  | EmptyString => EmptyString
  | String _ rest => rest
  end.

Fixpoint split_space (s : string) : list string :=
  match s with
  | EmptyString => [EmptyString]
  | String c rest =>
      if Ascii.eqb c " "%char then EmptyString :: split_space rest
      else match split_space rest with
           | part :: parts => String c part :: parts
           | [] => [String c EmptyString]
           end
  end.

Definition authenticateClient (status : clientStatus) : list output :=
  [Emit "auth" (AuthPayload (credentials status))].

Definition helpText : list output :=
  [WriteLine [(Some "gray", "#### Usage ####")] [];
   WriteLine [(None, "To execute commands, type a slash (/) followed by command name.")] [];
   WriteLine [(None, "To send a chat message, simply type a line of text without a leading slash.")] [];
   WriteLine [(None, "Messages from other users are displayed as they come. Note that you will usually need to login in order to participate in chats.")] [];
   WriteLine [(None, "Available commands:")] [];
   WriteLine [(None, "/login <login> <password> - set the username/password to be used upon connection and log in")] [];
   WriteLine [(None, "/register <login> <password> - create a new account on the server")] [];
   WriteLine [(None, "/quit - close the connection and exit the chat client")] [];
   WriteLine [(Some "gray", "###############")] []].

Definition handleCommandLine (commandLine : string) (status : clientStatus)
    : outcome :=
  let parts := split_space (slice1 commandLine) in
  let commandName := hd EmptyString parts in
  let commandArgs := tail parts in
  if String.eqb commandName "help" then
    Outcome status helpText Returns
  else if String.eqb commandName "login" then
    let status :=
      ClientStatus (connected status) (authenticated status)
        (Some (Credentials (commandArgs !! 0) (commandArgs !! 1))) in
    Outcome status
      (if connected status then authenticateClient status else []) Returns
  else if String.eqb commandName "register" then
    Outcome
      (ClientStatus (connected status) (authenticated status)
         (Some (Credentials (commandArgs !! 0) (commandArgs !! 1))))
      [Emit "register" (RegisterPayload (commandArgs !! 0) (commandArgs !! 1))]
      Returns
  else if String.eqb commandName "quit" then
    Outcome status
      [Close; Write "# So long and thanks for all the fish!"; Exit] Exited
  else
    match inherited commandName with
    | Some call =>
        match call commandArgs with
        | None => Outcome status [] Returns
        | Some message => Outcome status [] (Throws message)
        end
    | None =>
        Outcome status [] (Throws ("Unknown command: " ++ commandName))
    end.

Definition handleChatLine (chatLine : string) (status : clientStatus) : outcome :=
  if authenticated status then
    Outcome status [Emit "chat" (ChatPayload chatLine)] Returns
  else
    Outcome status
      [WriteLine [(None, "# (Message not sent - you are not logged in)")] []]
      Returns.

(** [cli.on('line', function handleLine(line) ...)]: the [try] block, the
    [catch], and the prompt after them. *)
Definition handleLine (line : string) (status : clientStatus) : outcome :=
  let tried :=
    match line with
    | String "/"%char _ => handleCommandLine line status
    | String _ _ => handleChatLine line status
    | EmptyString => Outcome status [] Returns
    end in
  match completed tried with
  | Returns =>
      Outcome (status_after tried) (outputs tried ++ [Prompt]) Returns
  | Throws message =>
      Outcome (status_after tried)
        (outputs tried ++ [WriteLine [(None, "# Error: %s")] [Some message]; Prompt])
        Returns
  | Exited => tried
  end.

(** What the server sends back for [auth] and [register]:
    [{ success: true, login }] or [{ success: false, error }]. *)
Inductive reply :=
| Success (login : string)
| Failure (message : string).

(** What the client reacts to. *)
Inductive input :=
| Line (line : string)
| Connect
| Disconnected
| ChatMessage (from : string) (body : option string)
| AuthReply (r : reply)
| RegisterReply (r : reply)
| Join (login : string)
| Leave (login : string).

Definition onConnect (status : clientStatus) : outcome :=
  let status := ClientStatus true false (credentials status) in
  Outcome status
    (WriteLine [(Some "yellow", "# Connected.")] [] ::
     match credentials status with
     | Some _ => authenticateClient status
     | None => []
     end)
    Returns.

Definition onDisconnect (status : clientStatus) : outcome :=
  Outcome (ClientStatus false false (credentials status))
    [SetPrompt defaultPrompt;
     WriteLine [(Some "yellow", "# Disconnected from chat server.")] []]
    Returns.

(** [clientStatus.credentials.login] is read first: without credentials
    that is a [TypeError]. *)
Definition onChat (from : string) (body : option string) (status : clientStatus)
    : outcome :=
  match credentials status with
  | None => Outcome status [] (Throws "TypeError")
  | Some c =>
      if bool_decide (Some from = login c) then
        Outcome status
          [WriteLine [(Some "blue", "%s (other connection): "); (None, "%s")]
             [Some from; body]] Returns
      else
        Outcome status
          [WriteLine [(Some "blue", "%s: "); (None, "%s")] [Some from; body]]
          Returns
  end.

Definition onAuth (r : reply) (status : clientStatus) : outcome :=
  match r with
  | Success l =>
      Outcome (ClientStatus (connected status) true (credentials status))
        [SetPrompt (l ++ ": ");
         WriteLine [(Some "yellow", "# Logged in as %s.")] [Some l]] Returns
  | Failure message =>
      Outcome status
        [WriteLine [(Some "red", "# Failed to log in - reason: %s")] [Some message]]
        Returns
  end.

Definition onRegister (r : reply) (status : clientStatus) : outcome :=
  match r with
  | Success l =>
      Outcome status
        (WriteLine [(Some "yellow", "# Registered as %s.")] [Some l] ::
         if connected status then authenticateClient status else [])
        Returns
  | Failure message =>
      Outcome status
        [WriteLine [(Some "red", "# Failed to register new user - reason: %s")]
           [Some message]]
        Returns
  end.

Definition handle (i : input) (status : clientStatus) : outcome :=
  match i with
  | Line line => handleLine line status
  | Connect => onConnect status
  | Disconnected => onDisconnect status
  | ChatMessage from body => onChat from body status
  | AuthReply r => onAuth r status
  | RegisterReply r => onRegister r status
  | Join l => Outcome status [WriteLine [(Some "blue", "# joins: %s")] [Some l]] Returns
  | Leave l => Outcome status [WriteLine [(Some "blue", "# leaves: %s")] [Some l]] Returns
  end.

(** The status after a sequence of inputs, each handled in turn. *)
Definition after_inputs (inputs : list input) (status : clientStatus)
    : clientStatus :=
  fold_left (λ status i, status_after (handle i status)) inputs status.

(** The inputs that come from the socket. *)
Definition from_socket (i : input) : bool :=
  match i with
  | Line _ => false
  | _ => true
  end.

(** A string with no space in it. *)
Fixpoint spaceless (s : string) : bool :=
  match s with
  | EmptyString => true
  | String c rest => negb (Ascii.eqb c " "%char) && spaceless rest
  end.

End client.

End ChatClient.
(** * Proofs *)

(** ** The registry operations on connection sets *)

Lemma size_pos_nonempty (X : gset socket) : 0 < size X ↔ X ≠ ∅.
Proof.
  rewrite <-(leibniz_equiv_iff X ∅), <-size_non_empty_iff. lia.
Qed.

(** Unregistering removes the socket from the set of its (truthy) login and
    touches no other set. *)
Lemma connections_unregister (s : socket) (k : jslogin) (self : ChatServer) :
  connections k (_unregisterSocket s self) =
    if truthy (clientLogin self !! s) && bool_decide (k = clientLogin self !! s)
    then connections k self ∖ {[s]} else connections k self.
Proof.
  unfold _unregisterSocket, connections.
  destruct (truthy (clientLogin self !! s)); simpl; [|done].
  destruct (decide (k = clientLogin self !! s)) as [->|Hk].
  - rewrite (bool_decide_eq_true_2 (_ = _)) by done.
    case_bool_decide as Hsz; simpl.
    + by rewrite lookup_insert_eq.
    + rewrite lookup_delete_eq. simpl.
      rewrite size_pos_nonempty in Hsz.
      symmetry. by apply dec_stable.
  - rewrite (bool_decide_eq_false_2 (_ = _)) by done.
    case_bool_decide; simpl.
    + by rewrite lookup_insert_ne.
    + by rewrite lookup_delete_ne.
Qed.

Lemma clientLogin_unregister (s : socket) (self : ChatServer) :
  clientLogin (_unregisterSocket s self) = clientLogin self.
Proof.
  unfold _unregisterSocket.
  destruct (negb _); [done|]. by case_bool_decide.
Qed.

Lemma connections_register (s : socket) (k : jslogin) (self : ChatServer) :
  connections k (_registerSocket s self) =
    if bool_decide (k = clientLogin self !! s)
    then connections k self ∪ {[s]} else connections k self.
Proof.
  unfold _registerSocket, connections. simpl.
  case_bool_decide as Hk.
  - subst k. by rewrite lookup_insert_eq.
  - by rewrite lookup_insert_ne.
Qed.

Lemma no_empty_sets_unregister (s : socket) (self : ChatServer) :
  no_empty_sets self → no_empty_sets (_unregisterSocket s self).
Proof.
  intros Hne k S. unfold _unregisterSocket.
  destruct (negb _); [apply Hne|].
  case_bool_decide as Hsz; simpl.
  - rewrite lookup_insert. case_decide.
    + intros [= <-]. by apply size_pos_nonempty.
    + apply Hne.
  - rewrite lookup_delete. case_decide; [done|apply Hne].
Qed.

Lemma no_empty_sets_register (s : socket) (self : ChatServer) :
  no_empty_sets self → no_empty_sets (_registerSocket s self).
Proof.
  intros Hne k S. unfold _registerSocket. simpl.
  rewrite lookup_insert. case_decide.
  - intros [= <-]. set_solver.
  - apply Hne.
Qed.

Lemma hasSockets_connections (k : jslogin) (self : ChatServer) :
  no_empty_sets self →
  hasSockets k self = negb (bool_decide (connections k self = ∅)).
Proof.
  intros Hne. unfold hasSockets, connections.
  destruct (userSockets self !! k) as [S|] eqn:HS; simpl.
  - rewrite (bool_decide_eq_false_2 (S = ∅)); [done|]. by eapply Hne.
  - by rewrite bool_decide_eq_true_2.
Qed.

(** A socket receives a broadcast iff it passes the filter and sits in some
    set of the registry. *)
Lemma elem_of_recipients (msg : message) (f : socket → bool)
    (self : ChatServer) (r : socket) :
  r ∈ recipients msg f self ↔ f r = true ∧ registered r self.
Proof.
  unfold recipients, registered, connections.
  rewrite list_elem_of_bind. split.
  - intros ([k S] & Hr & HkS). simpl in Hr.
    apply list_elem_of_In, filter_In in Hr as [Hr _].
    apply filter_In in Hr as [Hr Hf].
    apply list_elem_of_In, elem_of_elements in Hr.
    apply elem_of_map_to_list in HkS.
    split; [done|]. exists k. by rewrite HkS.
  - intros [Hf [k Hr]].
    destruct (userSockets self !! k) as [S|] eqn:HS; simpl in Hr; [|set_solver].
    exists (k, S). split; [|by apply elem_of_map_to_list].
    simpl. apply list_elem_of_In, filter_In. split; [|done].
    apply filter_In. split; [|done].
    by apply list_elem_of_In, elem_of_elements.
Qed.

(** ** What [_authorizeSocket] does to the registry *)

Lemma clientLogin_authorize (login : jslogin) (s : socket) (self : ChatServer) :
  clientLogin (_authorizeSocket login s self).1
  = partial_alter (λ _, login) s (clientLogin self).
Proof.
  unfold _authorizeSocket, _registerSocket, setLogin. simpl.
  by rewrite clientLogin_unregister.
Qed.

Lemma clientLogin_authorize_eq (login : jslogin) (s : socket) (self : ChatServer) :
  clientLogin (_authorizeSocket login s self).1 !! s = login.
Proof. by rewrite clientLogin_authorize, lookup_partial_alter_eq. Qed.

Lemma clientLogin_authorize_ne (login : jslogin) (s t : socket) (self : ChatServer) :
  t ≠ s →
  clientLogin (_authorizeSocket login s self).1 !! t = clientLogin self !! t.
Proof. intros Hts. by rewrite clientLogin_authorize, lookup_partial_alter_ne. Qed.

Lemma connections_authorize (login : jslogin) (s : socket) (k : jslogin)
    (self : ChatServer) :
  connections k (_authorizeSocket login s self).1 =
    if bool_decide (k = login) then connections k self ∪ {[s]}
    else if truthy (clientLogin self !! s) && bool_decide (k = clientLogin self !! s)
    then connections k self ∖ {[s]}
    else connections k self.
Proof.
  unfold _authorizeSocket. simpl.
  rewrite connections_register. simpl.
  rewrite lookup_partial_alter_eq.
  assert (connections k (setLogin s login (_unregisterSocket s self))
          = connections k (_unregisterSocket s self)) as -> by done.
  rewrite connections_unregister.
  case_bool_decide as Hk; [|done].
  destruct (truthy _ && _); [|done].
  apply set_eq. intros x. rewrite !elem_of_union, elem_of_difference.
  destruct (decide (x = s)) as [->|]; set_solver.
Qed.

Lemma no_empty_sets_authorize (login : jslogin) (s : socket) (self : ChatServer) :
  no_empty_sets self → no_empty_sets (_authorizeSocket login s self).1.
Proof.
  intros Hne. unfold _authorizeSocket. simpl.
  apply no_empty_sets_register.
  by apply (no_empty_sets_unregister s) in Hne.
Qed.

(** The effects of [_authorizeSocket]: at most one [leave], for the previous
    login, then at most one [join], for the new one. *)
Lemma effects_authorize (login : jslogin) (s : socket) (self : ChatServer) :
  let after := (_authorizeSocket login s self).1 in
  let previous := clientLogin self !! s in
  (_authorizeSocket login s self).2 =
    ((if truthy previous && negb (bool_decide (previous = login))
         && negb (hasSockets previous after)
      then [_notifyUserLeave previous after] else []) ++
     if negb (hasSockets login self)
     then [_notifyUserJoin login after] else [])%list.
Proof.
  cbv zeta. unfold _authorizeSocket. cbn [fst snd].
  do 2 f_equal. unfold _registerSocket, setLogin. cbn [clientLogin].
  by rewrite lookup_partial_alter_eq.
Qed.

(** ** Invariants of runs *)

Lemma run_snoc (evs : list event) (ev : event) :
  run (evs ++ [ev]) = server_after (step ev (run evs)).
Proof. unfold run. by rewrite fold_left_app. Qed.

Lemma lifecycle_snoc (evs : list event) (ev : event) :
  lifecycle (evs ++ [ev]) = lifecycle evs ≫= λ lc, lifecycle_step lc ev.
Proof. unfold lifecycle. by rewrite fold_left_app. Qed.

Lemma server_after_onAuth (s : socket) (login password : jsany)
    (result : settled) (self : ChatServer) :
  server_after (onAuth s login password result self) =
    match result with
    | Fulfilled => (_authorizeSocket login s self).1
    | Rejected _ => self
    end.
Proof.
  unfold onAuth. destruct result; [|done].
  by destruct (_authorizeSocket login s self).
Qed.

Lemma effects_onAuth (s : socket) (login password : jsany)
    (result : settled) (self : ChatServer) :
  effects (onAuth s login password result self) =
    match result with
    | Fulfilled =>
        Emit s "auth" (MsgSuccess login) :: (_authorizeSocket login s self).2
    | Rejected error => [Emit s "auth" (errorReply error)]
    end.
Proof.
  unfold onAuth. destruct result; [|done].
  by destruct (_authorizeSocket login s self).
Qed.

Lemma server_after_onChat (s : socket) (body : jsany) (self : ChatServer) :
  server_after (onChat s body self) = self.
Proof. unfold onChat. destruct (negb _); [by destruct (nullish body)|done]. Qed.

Lemma server_after_onRegister (s : socket) (login password : jsany)
    (result : settled) (self : ChatServer) :
  server_after (onRegister s login password result self) = self.
Proof. by destruct result. Qed.

Lemma no_empty_sets_step (ev : event) (self : ChatServer) :
  no_empty_sets self → no_empty_sets (server_after (step ev self)).
Proof.
  intros Hne. destruct ev as [s|s body|s login pw result|s login pw result|s|s type]; simpl.
  - done.
  - by rewrite server_after_onChat.
  - rewrite server_after_onAuth. destruct result; [|done].
    by apply no_empty_sets_authorize.
  - by rewrite server_after_onRegister.
  - by apply no_empty_sets_unregister.
  - done.
Qed.

Lemma no_empty_sets_run (evs : list event) : no_empty_sets (run evs).
Proof.
  induction evs as [|ev evs IH] using rev_ind.
  - intros k S. unfold run. simpl. by rewrite lookup_empty.
  - rewrite run_snoc. by apply no_empty_sets_step.
Qed.

Lemma live_registered_step (ev : event) (self : ChatServer)
    (seen live seen' live' : gset socket) :
  lifecycle_step (seen, live) ev = Some (seen', live') →
  live_registered live self →
  live_registered live' (server_after (step ev self)).
Proof.
  intros Hlc Hreg.
  destruct ev as [s|s body|s login pw result|s login pw result|s|s type]; simpl in *.
  - case_bool_decide; [done|]. injection Hlc as <- <-.
    intros t Ht. simpl. rewrite lookup_delete. case_decide; [done|].
    apply Hreg. set_solver.
  - case_bool_decide; [|done]. injection Hlc as <- <-.
    by rewrite server_after_onChat.
  - case_bool_decide as Hs; [|done]. injection Hlc as <- <-.
    rewrite server_after_onAuth. destruct result; [|done].
    intros t Ht. rewrite connections_authorize.
    destruct (decide (t = s)) as [->|Hts].
    + rewrite clientLogin_authorize_eq. intros _.
      rewrite bool_decide_eq_true_2 by done. set_solver.
    + rewrite clientLogin_authorize_ne by done. intros Htr.
      specialize (Hreg t Ht Htr).
      case_bool_decide; [set_solver|].
      destruct (truthy _ && _); set_solver.
  - case_bool_decide; [|done]. injection Hlc as <- <-.
    by rewrite server_after_onRegister.
  - case_bool_decide as Hs; [|done]. injection Hlc as <- <-.
    intros t Ht. rewrite clientLogin_unregister, connections_unregister.
    intros Htr. apply elem_of_difference in Ht as [Ht Hts].
    specialize (Hreg t Ht Htr).
    destruct (truthy _ && _); set_solver.
  - case_bool_decide; [|done]. by injection Hlc as <- <-.
Qed.

Lemma live_registered_run (evs : list event) (seen live : gset socket) :
  lifecycle evs = Some (seen, live) → live_registered live (run evs).
Proof.
  revert seen live. induction evs as [|ev evs IH] using rev_ind; intros seen live.
  - intros [= <- <-] s Hs. set_solver.
  - rewrite lifecycle_snoc, run_snoc.
    destruct (lifecycle evs) as [[seen0 live0]|]; [|done]. simpl.
    intros Hlc. eapply live_registered_step; [done|]. by eapply IH.
Qed.

Lemma well_formed_prefix (evs rest : list event) :
  well_formed (evs ++ rest) = true → well_formed evs = true.
Proof.
  unfold well_formed, lifecycle. rewrite !bool_decide_eq_true, fold_left_app.
  destruct (fold_left _ evs _) as [lc|]; [by eexists|].
  assert (fold_left (λ lc ev, lc ≫= λ lc, lifecycle_step lc ev) rest None = None)
    as ->; [|by intros [? [=]]].
  by induction rest.
Qed.

Lemma observed_snoc (self : ChatServer) (evs : list event) (ev : event) :
  observed self (evs ++ [ev]) =
  (observed self evs ++
     effects (step ev (fold_left (λ self ev, server_after (step ev self)) evs self)))%list.
Proof.
  revert self. induction evs as [|ev' evs IH]; intros self; simpl.
  - by rewrite app_nil_r.
  - by rewrite IH, app_assoc.
Qed.

Lemma transitions_snoc (change : ChatServer → ChatServer → bool)
    (self : ChatServer) (evs : list event) (ev : event) :
  transitions change self (evs ++ [ev]) =
  transitions change self evs
  + let before := fold_left (λ self ev, server_after (step ev self)) evs self in
    if change before (server_after (step ev before)) then 1 else 0.
Proof.
  revert self. induction evs as [|ev' evs IH]; intros self; simpl.
  - lia.
  - rewrite IH. simpl. lia.
Qed.

(** ** Presence notifications *)

Lemma presence_count_app (type : string) (login : jslogin) (out1 out2 : list effect) :
  presence_count type login (out1 ++ out2) =
  presence_count type login out1 + presence_count type login out2.
Proof. unfold presence_count. by rewrite List.filter_app, length_app. Qed.

Lemma presence_count_join (type : string) (login l : jslogin) (self : ChatServer) :
  presence_count type login [_notifyUserJoin l self] =
    if String.eqb "join" type && bool_decide (l = login) then 1 else 0.
Proof.
  unfold presence_count, _notifyUserJoin, _broadcastMessage. simpl.
  by destruct (_ && _).
Qed.

Lemma presence_count_leave (type : string) (login l : jslogin) (self : ChatServer) :
  presence_count type login [_notifyUserLeave l self] =
    if String.eqb "leave" type && bool_decide (l = login) then 1 else 0.
Proof.
  unfold presence_count, _notifyUserLeave, _broadcastMessage. simpl.
  by destruct (_ && _).
Qed.

Lemma bool_eq_iff (a b : bool) : (a = true ↔ b = true) → a = b.
Proof.
  destruct a, b; intros [H1 H2]; try done.
  - by rewrite H1.
  - by rewrite H2.
Qed.

Lemma indicator_ext (a b : bool) :
  (a = true ↔ b = true) → (if a then 1 else 0) = (if b then 1 else 0).
Proof. intros H. by rewrite (bool_eq_iff a b H). Qed.

Lemma indicator_le (a b : bool) :
  (a = true → b = true) → ((if a then 1 else 0) ≤ (if b then 1 else 0))%nat.
Proof. destruct a, b; intros H; (lia || by specialize (H eq_refl)). Qed.

Lemma join_count_authorize (login : jslogin) (s : socket) (self : ChatServer)
    (L : jslogin) :
  presence_count "join" L (_authorizeSocket login s self).2 =
    if negb (hasSockets login self) && bool_decide (login = L)
    then 1 else 0.
Proof.
  rewrite effects_authorize. cbv zeta. rewrite presence_count_app.
  assert (∀ l (b : bool) st, presence_count "join" L
            (if b then [_notifyUserLeave l st] else []) = 0) as Hleave.
  { intros l [] st; [|done]. by rewrite presence_count_leave. }
  rewrite Hleave. simpl. destruct (negb _); [|done].
  by rewrite presence_count_join.
Qed.

Lemma leave_count_authorize (login : jslogin) (s : socket) (self : ChatServer)
    (L : jslogin) :
  presence_count "leave" L (_authorizeSocket login s self).2 =
    if bool_decide (clientLogin self !! s = L) && truthy L
       && negb (bool_decide (L = login))
       && negb (hasSockets L (_authorizeSocket login s self).1)
    then 1 else 0.
Proof.
  rewrite effects_authorize. cbv zeta. rewrite presence_count_app.
  assert (∀ (b : bool) st, presence_count "leave" L
            (if b then [_notifyUserJoin login st] else []) = 0) as Hjoin.
  { intros [] st; [|done]. by rewrite presence_count_join. }
  rewrite Hjoin, Nat.add_0_r.
  destruct (decide (clientLogin self !! s = L)) as [HL|HL].
  - rewrite !HL, (bool_decide_eq_true_2 (L = L)) by done. simpl.
    destruct (_ && _); [|done].
    rewrite presence_count_leave. simpl.
    by rewrite bool_decide_eq_true_2.
  - rewrite (bool_decide_eq_false_2 (_ = L)) by done. simpl.
    destruct (_ && _); [|done].
    rewrite presence_count_leave. simpl.
    by rewrite bool_decide_eq_false_2.
Qed.

(** One authorization.  A [join] iff the new login appears.  A [leave] if
    the previous login vanishes, and only then when the socket was in the set
    of its previous login. *)
Lemma presence_authorize (login : jslogin) (s : socket) (self : ChatServer)
    (L : jslogin) :
  no_empty_sets self →
  let after := (_authorizeSocket login s self).1 in
  let out := (_authorizeSocket login s self).2 in
  presence_count "join" L out = (if appears L self after then 1 else 0)
  ∧ ((if vanishes L self after then 1 else 0) ≤ presence_count "leave" L out)%nat
  ∧ (presence_count "leave" L out ≤ 1)%nat
  ∧ ((truthy (clientLogin self !! s) = true →
      s ∈ connections (clientLogin self !! s) self) →
     presence_count "leave" L out = (if vanishes L self after then 1 else 0)).
Proof.
  intros Hne after out.
  assert (no_empty_sets after) as Hne' by by apply no_empty_sets_authorize.
  unfold out. rewrite join_count_authorize, leave_count_authorize. fold after.
  rewrite (hasSockets_connections _ self), (hasSockets_connections _ after) by done.
  rewrite !negb_involutive.
  pose proof (connections_authorize login s L self) as HL. fold after in HL.
  assert (vanishes L self after = true →
          bool_decide (clientLogin self !! s = L) && truthy L
          && negb (bool_decide (L = login))
          && bool_decide (connections L after = ∅) = true) as Hvanish.
  { unfold vanishes.
    rewrite !andb_true_iff, !negb_true_iff, !bool_decide_eq_true,
      !bool_decide_eq_false.
    intros [Hbefore Hafter]. rewrite HL in Hafter.
    destruct (decide (L = login)) as [->|HLl].
    { rewrite bool_decide_eq_true_2 in Hafter by done. set_solver. }
    rewrite (bool_decide_eq_false_2 (L = login)) in Hafter by done.
    destruct (decide (L = clientLogin self !! s)) as [Hprev|Hprev].
    - rewrite <-Hprev in Hafter. destruct (truthy L) eqn:Htr; [|done].
      repeat split; [done..|].
      rewrite HL, (bool_decide_eq_false_2 (L = login)) by done.
      by rewrite <-Hprev, Htr.
    - rewrite (bool_decide_eq_false_2 _ Hprev), andb_false_r in Hafter. done. }
  split; [|split; [|split]].
  - apply indicator_ext. unfold appears.
    rewrite !andb_true_iff, ?negb_true_iff, ?bool_decide_eq_true,
      ?bool_decide_eq_false.
    split.
    + intros [Hempty <-]. split; [done|].
      rewrite HL, bool_decide_eq_true_2 by done. set_solver.
    + intros [Hempty Hafter].
      destruct (decide (login = L)) as [<-|HlL]; [done|].
      exfalso. apply Hafter. rewrite HL.
      rewrite (bool_decide_eq_false_2 (L = login)) by done.
      destruct (truthy _ && _); set_solver.
  - by apply indicator_le.
  - match goal with |- ((if ?c then _ else _) ≤ _)%nat => destruct c end; lia.
  - intros Hs. apply indicator_ext. split; [|done].
    unfold vanishes.
    rewrite !andb_true_iff, !negb_true_iff, !bool_decide_eq_true,
      !bool_decide_eq_false.
    intros [[[Hprev HLtr] HLl] Hafter]. split; [|done].
    rewrite Hprev in Hs. specialize (Hs HLtr). set_solver.
Qed.

Lemma effects_onDisconnect (s : socket) (self : ChatServer) :
  let previous := clientLogin self !! s in
  effects (onDisconnect s self) =
    if truthy previous && negb (hasSockets previous (_unregisterSocket s self))
    then [_notifyUserLeave previous (_unregisterSocket s self)] else [].
Proof. unfold onDisconnect. simpl. by rewrite clientLogin_unregister. Qed.

(** One disconnect: never a [join]; a [leave] if the login of the socket
    vanishes, and only then when the socket was in the set of its login. *)
Lemma presence_disconnect (s : socket) (self : ChatServer) (L : jslogin) :
  no_empty_sets self →
  let after := server_after (onDisconnect s self) in
  let out := effects (onDisconnect s self) in
  presence_count "join" L out = (if appears L self after then 1 else 0)
  ∧ ((if vanishes L self after then 1 else 0) ≤ presence_count "leave" L out)%nat
  ∧ (presence_count "leave" L out ≤ 1)%nat
  ∧ ((truthy (clientLogin self !! s) = true →
      s ∈ connections (clientLogin self !! s) self) →
     presence_count "leave" L out = (if vanishes L self after then 1 else 0)).
Proof.
  intros Hne after out.
  assert (after = _unregisterSocket s self) as Hafter by done.
  assert (no_empty_sets after) as Hne'.
  { rewrite Hafter. by apply no_empty_sets_unregister. }
  assert (presence_count "join" L out = 0) as ->.
  { unfold out. rewrite effects_onDisconnect. cbv zeta.
    destruct (_ && _); [|done]. by rewrite presence_count_leave. }
  assert (presence_count "leave" L out =
    if bool_decide (clientLogin self !! s = L) && truthy L
       && negb (hasSockets L after) then 1 else 0) as ->.
  { unfold out. rewrite effects_onDisconnect, <-Hafter. cbv zeta.
    destruct (decide (clientLogin self !! s = L)) as [HL|HL].
    - rewrite !HL, (bool_decide_eq_true_2 (L = L)) by done. simpl.
      destruct (_ && _); [|done].
      rewrite presence_count_leave. simpl. by rewrite bool_decide_eq_true_2.
    - rewrite (bool_decide_eq_false_2 (_ = L)) by done. simpl.
      destruct (_ && _); [|done].
      rewrite presence_count_leave. simpl. by rewrite bool_decide_eq_false_2. }
  rewrite (hasSockets_connections _ after), negb_involutive by done.
  pose proof (connections_unregister s L self) as HL.
  rewrite <-Hafter in HL.
  assert (vanishes L self after = true →
          bool_decide (clientLogin self !! s = L) && truthy L
          && bool_decide (connections L after = ∅) = true) as Hvanish.
  { unfold vanishes.
    rewrite !andb_true_iff, !negb_true_iff, !bool_decide_eq_true,
      !bool_decide_eq_false.
    intros [Hbefore Hempty].
    destruct (decide (L = clientLogin self !! s)) as [Hprev|Hprev].
    - destruct (truthy L) eqn:Htr; [done|].
      rewrite HL, <-Hprev, Htr in Hempty. done.
    - rewrite HL, (bool_decide_eq_false_2 _ Hprev), andb_false_r in Hempty.
      done. }
  split; [|split; [|split]].
  - assert (appears L self after = false) as ->; [|done].
    unfold appears. apply andb_false_iff.
    destruct (decide (connections L self = ∅)) as [Hempty|Hnon].
    + right. rewrite negb_false_iff, bool_decide_eq_true, HL.
      destruct (_ && _); set_solver.
    + left. by rewrite bool_decide_eq_false.
  - by apply indicator_le.
  - match goal with |- ((if ?c then _ else _) ≤ _)%nat => destruct c end; lia.
  - intros Hs. apply indicator_ext. split; [|done].
    unfold vanishes.
    rewrite !andb_true_iff, !negb_true_iff, !bool_decide_eq_true,
      !bool_decide_eq_false.
    intros [[Hprev HLtr] Hempty]. split; [|done].
    rewrite Hprev in Hs. specialize (Hs HLtr). set_solver.
Qed.

(** Every transition broadcasts [join] for a login exactly when its set
    appears; it broadcasts [leave] when its set vanishes, at most once, and
    only then provided the socket the event unregisters was in the set of its
    login. *)
Lemma presence_step (ev : event) (self : ChatServer) (L : jslogin) :
  no_empty_sets self →
  let after := server_after (step ev self) in
  let out := effects (step ev self) in
  presence_count "join" L out = (if appears L self after then 1 else 0)
  ∧ ((if vanishes L self after then 1 else 0) ≤ presence_count "leave" L out)%nat
  ∧ (presence_count "leave" L out ≤ 1)%nat
  ∧ (socket_in_place ev self →
     presence_count "leave" L out = (if vanishes L self after then 1 else 0)).
Proof.
  intros Hne.
  assert (∀ b : bool,
    presence_count "join" L [] = (if b && negb b then 1 else 0)
    ∧ ((if negb b && b then 1 else 0) ≤ presence_count "leave" L [])%nat
    ∧ (presence_count "leave" L [] ≤ 1)%nat
    ∧ (True → presence_count "leave" L [] = (if negb b && b then 1 else 0)))
    as Hquiet.
  { intros []; unfold presence_count; simpl; repeat split; lia. }
  destruct ev as [s|s body|s login pw result|s login pw result|s|s type];
    simpl in *.
  - unfold appears, vanishes, connections. simpl. by apply Hquiet.
  - rewrite server_after_onChat. unfold appears, vanishes. unfold onChat.
    destruct (negb _); [destruct (nullish body)|]; by apply Hquiet.
  - rewrite server_after_onAuth, effects_onAuth. destruct result.
    + by apply presence_authorize.
    + unfold appears, vanishes. by apply Hquiet.
  - rewrite server_after_onRegister. unfold appears, vanishes.
    destruct result; by apply Hquiet.
  - by apply presence_disconnect.
  - unfold appears, vanishes. by apply Hquiet.
Qed.

(** In a run, the socket an event unregisters is in place when it is
    connected. *)
Lemma socket_in_place_run (evs : list event) (ev : event) :
  well_formed (evs ++ [ev]) = true →
  match ev with
  | AuthEvent s _ _ Fulfilled => is_live evs s = true
  | _ => True
  end →
  socket_in_place ev (run evs).
Proof.
  unfold well_formed, is_live. rewrite bool_decide_eq_true, lifecycle_snoc.
  intros [[seen' live'] Hlc].
  destruct (lifecycle evs) as [[seen live]|] eqn:Hevs; [|done]. simpl in Hlc.
  pose proof (live_registered_run evs seen live Hevs) as Hreg.
  destruct ev as [s|s body|s login pw result|s login pw result|s|s type]; simpl in *;
    try done.
  - destruct result; [|done]. rewrite bool_decide_eq_true. intros Hs.
    by apply Hreg.
  - intros _. case_bool_decide as Hs; [|done]. by apply Hreg.
Qed.

Lemma settles_in_time_prefix (evs rest : list event) :
  settles_in_time (evs ++ rest) → settles_in_time evs.
Proof.
  intros Hin before s login password rest' ->.
  apply (Hin before s login password (rest' ++ rest)%list).
  by rewrite <-app_assoc.
Qed.

(** The broadcasts of a run against the transitions of the set of a login,
    whatever the order of the events: joins are exact, and every vanishing
    has its [leave]. *)
Lemma presence_run (evs : list event) (L : jslogin) :
  presence_count "join" L (observed emptyServer evs)
  = transitions (appears L) emptyServer evs
  ∧ (transitions (vanishes L) emptyServer evs
     ≤ presence_count "leave" L (observed emptyServer evs))%nat.
Proof.
  induction evs as [|ev evs [IHjoin IHleave]] using rev_ind; [done|].
  destruct (presence_step ev (run evs) L (no_empty_sets_run evs))
    as (Hjoin & Hleave & _).
  rewrite observed_snoc, !transitions_snoc, !presence_count_app.
  fold (run evs). cbv zeta. split; [by rewrite IHjoin, Hjoin|lia].
Qed.

(** [leave] is exact as well when every successful authentication settles
    while its socket is connected. *)
Lemma leave_once_per_vanishing_in_time (evs : list event) (L : jslogin) :
  well_formed evs = true → settles_in_time evs →
  presence_count "leave" L (observed emptyServer evs)
  = transitions (vanishes L) emptyServer evs.
Proof.
  induction evs as [|ev evs IH] using rev_ind; [done|].
  intros Hwf Hin.
  specialize (IH (well_formed_prefix _ _ Hwf) (settles_in_time_prefix _ _ Hin)).
  destruct (presence_step ev (run evs) L (no_empty_sets_run evs))
    as (_ & _ & _ & Hleave).
  rewrite observed_snoc, !transitions_snoc, !presence_count_app.
  fold (run evs). cbv zeta. rewrite IH, Hleave; [done|].
  apply socket_in_place_run; [done|].
  destruct ev as [s|s body|s login pw result|s login pw result|s|s type]; try done.
  destruct result; [|done]. by apply (Hin evs s login pw []).
Qed.

(** The scenario of the specification: socket 1 is ["amy"], socket 2 is
    ["bob"], and a third socket authenticates as ["amy"].  Over that run:
    one [join] for ["amy"], one [join] and one [leave] for ["bob"]. *)
Example scenario_totals :
  let evs := [Connection 1; AuthEvent 1 (str "amy") (str "pw") Fulfilled;
              Connection 2; AuthEvent 2 (str "bob") (str "pw") Fulfilled;
              Connection 3; AuthEvent 3 (str "amy") (str "pw") Fulfilled;
              Disconnect 2] in
  presence_count "join" (str "amy") (observed emptyServer evs) = 1
  ∧ presence_count "leave" (str "amy") (observed emptyServer evs) = 0
  ∧ presence_count "join" (str "bob") (observed emptyServer evs) = 1
  ∧ presence_count "leave" (str "bob") (observed emptyServer evs) = 1.
Proof. by vm_compute. Qed.

(** The scenario of the specification, step by step: socket 1 is
    ["amy"], socket 2 is ["bob"]. *)
Example scenario_chat :
  effects (step (ChatEvent 1 (str "hi"))
             (run [Connection 1; AuthEvent 1 (str "amy") (str "pw") Fulfilled;
                   Connection 2; AuthEvent 2 (str "bob") (str "pw") Fulfilled]))
  = [Log "debug" "message";
     Broadcast "chat" (MsgChat (str "amy") (str "hi")) [2]].
Proof. by vm_compute. Qed.

Example scenario_disconnect :
  effects (step (Disconnect 2)
             (run [Connection 1; AuthEvent 1 (str "amy") (str "pw") Fulfilled;
                   Connection 2; AuthEvent 2 (str "bob") (str "pw") Fulfilled]))
  = [Broadcast "leave" (MsgPresence (str "bob")) [1]].
Proof. by vm_compute. Qed.

Example scenario_second_socket :
  effects (step (AuthEvent 3 (str "amy") (str "pw") Fulfilled)
             (run [Connection 1; AuthEvent 1 (str "amy") (str "pw") Fulfilled;
                   Connection 2; AuthEvent 2 (str "bob") (str "pw") Fulfilled;
                   Connection 3]))
  = [Emit 3 "auth" (MsgSuccess (str "amy"))].
Proof. by vm_compute. Qed.

(** C1 fails when the promise of an authentication settles after the socket
    has disconnected.  Socket 1 is ["amy"], socket 2 is ["zed"]; socket 1
    asks to authenticate as ["bob"] and disconnects before the authenticator
    has answered.  The disconnect broadcasts the [leave] for ["amy"], whose
    set goes from non-empty to empty, the only time in the run.  When the
    promise is fulfilled, [_authorizeSocket] runs on the disconnected socket,
    whose login still reads ["amy"]: the [leave] for ["amy"] is broadcast a
    second time, so that socket 2 receives it twice, and the disconnected
    socket enters the set of ["bob"], for whom a [join] is broadcast. *)
Theorem late_authentication_repeats_leave :
  let evs := [Connection 1; AuthEvent 1 (str "amy") (str "pw") Fulfilled;
              Connection 2; AuthEvent 2 (str "zed") (str "pw") Fulfilled;
              Disconnect 1; AuthEvent 1 (str "bob") (str "pw") Fulfilled] in
  well_formed evs = true
  ∧ transitions (vanishes (str "amy")) emptyServer evs = 1
  ∧ presence_count "leave" (str "amy") (observed emptyServer evs) = 2
  ∧ received 2 "leave" (MsgPresence (str "amy")) (observed emptyServer evs) = 2
  ∧ is_live evs 1 = false
  ∧ elements (connections (str "bob") (run evs)) = [1]
  ∧ received 2 "join" (MsgPresence (str "bob")) (observed emptyServer evs) = 1.
Proof. by vm_compute. Qed.

(** ** Re-authentication under the same login *)

(** C10.  A socket that is bound to login [L] and sits in the set of [L]
    authenticates as [L] again: the registry and the logins of all sockets
    are what they were, and nothing is broadcast. *)
Theorem reauthorize_same_login (self : ChatServer) (s : socket) (L : jslogin) :
  clientLogin self !! s = L →
  s ∈ connections L self →
  _authorizeSocket L s self = (self, []).
Proof.
  intros Hlogin Hs. destruct self as [us cl]. simpl in *.
  unfold connections in Hs. simpl in Hs.
  destruct (us !! L) as [S|] eqn:HS; simpl in Hs; [|set_solver].
  assert (S ∖ {[s]} ∪ {[s]} = S) as Hput.
  { apply set_eq. intros x. rewrite elem_of_union, elem_of_difference.
    destruct (decide (x = s)) as [->|]; set_solver. }
  assert (partial_alter (λ _, L) s cl = cl) as Hcl.
  { rewrite <-Hlogin. apply partial_alter_self. }
  unfold _authorizeSocket, hasSockets. simpl. rewrite Hlogin, HS.
  rewrite (bool_decide_eq_true_2 (is_Some (Some S))) by by eexists.
  rewrite (bool_decide_eq_true_2 (L = L)), andb_false_r by done. simpl. f_equal.
  unfold _registerSocket, setLogin, _unregisterSocket. simpl.
  rewrite Hlogin, HS. simpl.
  destruct (negb (truthy L)); simpl.
  - rewrite Hcl, Hlogin, HS. simpl.
    f_equal. apply insert_id. rewrite HS. f_equal. set_solver.
  - case_bool_decide as Hsz; simpl.
    + rewrite Hcl, Hlogin, lookup_insert_eq. simpl.
      rewrite Hput, insert_insert_eq.
      f_equal. by apply insert_id.
    + rewrite Hcl, Hlogin, lookup_delete_eq. simpl.
      rewrite size_pos_nonempty in Hsz. apply dec_stable in Hsz.
      rewrite insert_delete_eq.
      f_equal. apply insert_id. rewrite HS. f_equal.
      rewrite <-Hput at 1. rewrite Hsz. set_solver.
Qed.

Lemma reauthorize_same_login_witness :
  let self := run [Connection 1; AuthEvent 1 (str "amy") (str "pw") Fulfilled] in
  clientLogin self !! 1 = str "amy"
  ∧ 1 ∈ connections (str "amy") self
  ∧ _authorizeSocket (str "amy") 1 self = (self, []).
Proof.
  split; [by vm_compute|]. split; [by vm_compute|].
  apply (reauthorize_same_login
           (run [Connection 1; AuthEvent 1 (str "amy") (str "pw") Fulfilled])
           1 (str "amy"));
    by vm_compute.
Defined.

(** ** Chat *)

(** C6.  A chat event from a socket without a login ([null], or any falsy
    login) changes nothing in the server and emits nothing to any socket,
    the sender included; the only effect is at most a log line. *)
Theorem chat_unbound_dropped (self : ChatServer) (s : socket) (body : jsany) :
  truthy (clientLogin self !! s) = false →
  server_after (onChat s body self) = self
  ∧ emissions (effects (onChat s body self)) = [].
Proof.
  intros Hfalsy. unfold onChat. rewrite Hfalsy. simpl.
  by destruct (nullish body).
Qed.

Lemma chat_unbound_dropped_witness :
  let self := run [Connection 1; AuthEvent 1 (str "amy") (str "pw") Fulfilled;
                   Connection 2] in
  truthy (clientLogin self !! 2) = false
  ∧ server_after (onChat 2 (str "hi") self) = self
  ∧ emissions (effects (onChat 2 (str "hi") self)) = [].
Proof.
  split; [by vm_compute|].
  apply (chat_unbound_dropped
           (run [Connection 1; AuthEvent 1 (str "amy") (str "pw") Fulfilled;
                 Connection 2])
           2 (str "hi")).
  by vm_compute.
Defined.

(** Against C5 as stated.  Sockets 1, 2 and 3 are connected, 1 as ["amy"]
    and 3 as ["bob"], 2 not authenticated: the chat of socket 1 is emitted to
    socket 3 only. *)
Lemma chat_skips_unauthenticated_socket :
  let evs := [Connection 1; AuthEvent 1 (str "amy") (str "pw") Fulfilled;
              Connection 2;
              Connection 3; AuthEvent 3 (str "bob") (str "pw") Fulfilled] in
  is_live evs 2 = true
  ∧ effects (step (ChatEvent 1 (str "hi")) (run evs))
    = [Log "debug" "message";
       Broadcast "chat" (MsgChat (str "amy") (str "hi")) [3]].
Proof. by vm_compute. Qed.

(** C5, amended.  A chat event from a socket bound to a truthy login [L]
    leaves the server state alone and broadcasts [{from: L, body}] once; the
    recipients are exactly the sockets of the registry other than the
    sender, so the other sockets of [L] are among them, the sender is not,
    and neither is a connected socket that has not authenticated. *)
Theorem chat_reaches_other_registered_sockets (self : ChatServer) (s : socket)
    (L : jslogin) (body : jsany) :
  clientLogin self !! s = L → truthy L = true →
  ∃ rs, onChat s body self =
          mkOutcome self
            [Log "debug" "message"; Broadcast "chat" (MsgChat L body) rs] Returns
        ∧ ∀ t, t ∈ rs ↔ t ≠ s ∧ registered t self.
Proof.
  intros Hlogin HL. eexists. split.
  - unfold onChat. rewrite Hlogin, HL. simpl.
    unfold _broadcastMessage. reflexivity.
  - intros t. rewrite elem_of_recipients, negb_true_iff, bool_decide_eq_false.
    done.
Qed.

Lemma chat_reaches_other_registered_sockets_witness :
  let self := run [Connection 1; AuthEvent 1 (str "amy") (str "pw") Fulfilled;
                   Connection 2; AuthEvent 2 (str "amy") (str "pw") Fulfilled] in
  clientLogin self !! 1 = str "amy" ∧ truthy (str "amy") = true
  ∧ ∃ rs, onChat 1 (str "hi") self =
            mkOutcome self
              [Log "debug" "message";
               Broadcast "chat" (MsgChat (str "amy") (str "hi")) rs] Returns
          ∧ ∀ t, t ∈ rs ↔ t ≠ 1 ∧ registered t self.
Proof.
  split; [by vm_compute|]. split; [done|].
  apply (chat_reaches_other_registered_sockets
           (run [Connection 1; AuthEvent 1 (str "amy") (str "pw") Fulfilled;
                 Connection 2; AuthEvent 2 (str "amy") (str "pw") Fulfilled])
           1 (str "amy") (str "hi")); [by vm_compute|done].
Defined.

(** ** Replies to [auth] and [register] *)

Lemma no_result_in_authorize (login : jslogin) (s : socket) (self : ChatServer) :
  List.filter is_result (emissions (_authorizeSocket login s self).2) = [].
Proof.
  assert (∀ type msg rs, is_result (0, type, msg) = false →
    List.filter is_result ((λ r : socket, (r, type, msg)) <$> rs) = []) as Hnone.
  { intros type msg rs Htype. induction rs as [|r rs IH]; [done|].
    simpl. unfold is_result in *. simpl in *. by rewrite Htype. }
  rewrite effects_authorize. cbv zeta. unfold emissions.
  rewrite bind_app, List.filter_app.
  assert (∀ (b : bool) l st,
    List.filter is_result
      ((if b then [_notifyUserLeave l st] else []) ≫= emissions_of) = [])
    as Hleave.
  { intros [] l st; [|done]. simpl. rewrite app_nil_r. by apply Hnone. }
  assert (∀ (b : bool) l st,
    List.filter is_result
      ((if b then [_notifyUserJoin l st] else []) ≫= emissions_of) = [])
    as Hjoin.
  { intros [] l st; [|done]. simpl. rewrite app_nil_r. by apply Hnone. }
  by rewrite Hjoin, Hleave.
Qed.

(** C7.  Whatever the authenticator answers, the [auth] handler emits
    exactly one event of a result type, to the socket the request came from,
    carrying [{success: true, login}] or [{success: false, error}]; the
    [register] handler likewise.  No other socket gets an event of these
    types. *)
Theorem result_only_to_sender (self : ChatServer) (s : socket)
    (login password : jsany) (result : settled) :
  List.filter is_result (emissions (effects (onAuth s login password result self)))
    = [(s, "auth", resultMessage login result)]
  ∧ List.filter is_result
      (emissions (effects (onRegister s login password result self)))
    = [(s, "register", resultMessage login result)].
Proof.
  split.
  - rewrite effects_onAuth. destruct result; [|done].
    change (emissions (?e :: ?out)) with (emissions_of e ++ emissions out)%list.
    rewrite List.filter_app, no_result_in_authorize. done.
  - by destruct result.
Qed.

(** ** Exceptions *)

(** C8 fails on a chat event whose payload has no [body], from a socket
    that never authenticated: on the branch that is meant to skip the
    message, [body.length] raises a [TypeError], and nothing in the handler
    catches it.  Nothing is logged and no reply is sent. *)
Theorem chat_without_body_throws :
  step (ChatEvent 1 (Some JsUndefined)) (run [Connection 1])
  = mkOutcome (run [Connection 1]) [] (Throws "TypeError").
Proof. by vm_compute. Qed.

(** The handlers are left by an exception in two cases: a payload that is
    [null] or missing, whose properties cannot be read, and a chat event
    whose [body] is missing or [null], from a socket whose login is falsy.
    In both the server state is as before and nothing has been emitted or
    logged.  A chat event without [body] from an authenticated socket is
    broadcast. *)
Lemma step_throws_iff (ev : event) (self : ChatServer) :
  completed (step ev self) ≠ Returns ↔
  (∃ s type, ev = Malformed s type)
  ∨ ∃ s body, ev = ChatEvent s body ∧ nullish body = true
              ∧ truthy (clientLogin self !! s) = false.
Proof.
  split.
  - destruct ev as [s|s body|s login pw result|s login pw result|s|s type]; simpl.
    + done.
    + unfold onChat. destruct (truthy _) eqn:Htr; simpl; [done|].
      destruct (nullish body) eqn:Hbody; [|done]. intros _. right.
      by exists s, body.
    + unfold onAuth. destruct result; [|done].
      by destruct (_authorizeSocket login s self).
    + by destruct result.
    + done.
    + intros _. left. by exists s, type.
  - intros [(s & type & ->)|(s & body & -> & Hbody & Htr)]; simpl; [done|].
    unfold onChat. by rewrite Htr, Hbody.
Qed.

Lemma step_throws_unchanged (ev : event) (self : ChatServer) :
  completed (step ev self) ≠ Returns →
  server_after (step ev self) = self ∧ effects (step ev self) = [].
Proof.
  intros [(s & type & ->)|(s & body & -> & Hbody & Htr)]%step_throws_iff;
    simpl; [done|].
  unfold onChat. by rewrite Htr, Hbody.
Qed.

(** ** Switching identity *)

Lemma registered_authorize_other (login : jslogin) (s t : socket)
    (self : ChatServer) :
  t ≠ s →
  registered t (_authorizeSocket login s self).1 ↔ registered t self.
Proof.
  intros Hts. unfold registered. split; intros [k Hk]; exists k.
  - rewrite connections_authorize in Hk.
    case_bool_decide; [set_solver|].
    destruct (truthy _ && _); set_solver.
  - rewrite connections_authorize.
    case_bool_decide; [set_solver|].
    destruct (truthy _ && _); set_solver.
Qed.

Lemma hasSockets_unregister (s : socket) (self : ChatServer) :
  truthy (clientLogin self !! s) = true →
  hasSockets (clientLogin self !! s) (_unregisterSocket s self) =
    negb (bool_decide (connections (clientLogin self !! s) self ∖ {[s]} = ∅)).
Proof.
  intros Htr. unfold hasSockets, _unregisterSocket, connections. rewrite Htr.
  simpl.
  set (rest := default ∅ (userSockets self !! (clientLogin self !! s)) ∖ {[s]}).
  destruct (decide (0 < size rest)) as [Hsz|Hsz].
  - rewrite (bool_decide_eq_true_2 (0 < size rest)) by done. simpl.
    rewrite lookup_insert_eq. apply size_pos_nonempty in Hsz.
    rewrite (bool_decide_eq_false_2 (rest = ∅)) by done.
    by rewrite bool_decide_eq_true_2.
  - rewrite (bool_decide_eq_false_2 (0 < size rest)) by done. simpl.
    rewrite lookup_delete_eq. rewrite size_pos_nonempty in Hsz.
    apply dec_stable in Hsz. rewrite (bool_decide_eq_true_2 (rest = ∅)) by done.
    by rewrite bool_decide_eq_false_2 by by intros [? [=]].
Qed.

Lemma hasSockets_authorize_other (login : jslogin) (s : socket) (k : jslogin)
    (self : ChatServer) :
  k ≠ login →
  hasSockets k (_authorizeSocket login s self).1 =
  hasSockets k (_unregisterSocket s self).
Proof.
  intros Hk. unfold _authorizeSocket, _registerSocket, setLogin, hasSockets.
  simpl. rewrite lookup_partial_alter_eq. by rewrite lookup_insert_ne.
Qed.

(** Against C2 as stated.  Socket 1 is ["amy"], socket 2 is ["zed"], and
    socket 1 re-authenticates as ["bob"]: the [leave] for ["amy"] is emitted
    to socket 1 itself as well, since its login is ["bob"] by the time the
    filter runs. *)
Lemma identity_switch_leave_reaches_switcher :
  effects (step (AuthEvent 1 (str "bob") (str "pw") Fulfilled)
             (run [Connection 1; AuthEvent 1 (str "amy") (str "pw") Fulfilled;
                   Connection 2; AuthEvent 2 (str "zed") (str "pw") Fulfilled]))
  = [Emit 1 "auth" (MsgSuccess (str "bob"));
     Broadcast "leave" (MsgPresence (str "amy")) [2; 1];
     Broadcast "join" (MsgPresence (str "bob")) [2]].
Proof. by vm_compute. Qed.

(** C2, amended.  A socket bound to a truthy login [A] authenticates as
    [B ≠ A] and the set of [A] becomes empty: [leave{A}] is broadcast first,
    to every registered socket whose login is not [A], the switching socket
    itself included; then, if [B] had no socket before, [join{B}] is
    broadcast to every registered socket whose login is not [B], so not to
    the switching socket.  Sockets that are not in the registry receive
    neither. *)
Theorem identity_switch_notifications (self : ChatServer) (s : socket)
    (A B : jslogin) :
  clientLogin self !! s = A → truthy A = true → A ≠ B →
  connections A self ∖ {[s]} = ∅ →
  ∃ rsA rsB,
    (_authorizeSocket B s self).2 =
      Broadcast "leave" (MsgPresence A) rsA ::
      (if hasSockets B self then []
       else [Broadcast "join" (MsgPresence B) rsB])
    ∧ (∀ t, t ∈ rsA ↔
         t = s ∨ (registered t self ∧ clientLogin self !! t ≠ A))
    ∧ (∀ t, t ∈ rsB ↔
         t ≠ s ∧ registered t self ∧ clientLogin self !! t ≠ B).
Proof.
  intros Hlogin HA HAB Hlast.
  set (after := (_authorizeSocket B s self).1).
  assert (registered s after) as Hs.
  { exists B. unfold after. rewrite connections_authorize.
    rewrite bool_decide_eq_true_2 by done. set_solver. }
  assert (hasSockets A after = false) as Hgone.
  { unfold after. rewrite hasSockets_authorize_other by done.
    rewrite <-Hlogin, hasSockets_unregister; rewrite Hlogin; [|done].
    by rewrite bool_decide_eq_true_2. }
  exists (recipients (MsgPresence A) (otherUser A after) after),
         (recipients (MsgPresence B) (otherUser B after) after).
  split; [|split].
  - rewrite effects_authorize. cbv zeta. fold after. rewrite Hlogin, Hgone, HA.
    rewrite (bool_decide_eq_false_2 (A = B)) by done. simpl.
    by destruct (hasSockets B self).
  - intros t. rewrite elem_of_recipients. unfold otherUser.
    rewrite negb_true_iff, bool_decide_eq_false.
    destruct (decide (t = s)) as [->|Hts].
    + unfold after at 1. rewrite clientLogin_authorize_eq. split; [by left|].
      intros _. split; [congruence|done].
    + unfold after. rewrite clientLogin_authorize_ne by done.
      rewrite registered_authorize_other by done. naive_solver.
  - intros t. rewrite elem_of_recipients. unfold otherUser.
    rewrite negb_true_iff, bool_decide_eq_false.
    destruct (decide (t = s)) as [->|Hts].
    + unfold after at 1. rewrite clientLogin_authorize_eq. naive_solver.
    + unfold after. rewrite clientLogin_authorize_ne by done.
      rewrite registered_authorize_other by done. naive_solver.
Qed.

Lemma identity_switch_notifications_witness :
  let self := run [Connection 1; AuthEvent 1 (str "amy") (str "pw") Fulfilled;
                   Connection 2; AuthEvent 2 (str "zed") (str "pw") Fulfilled] in
  clientLogin self !! 1 = str "amy" ∧ truthy (str "amy") = true
  ∧ str "amy" ≠ str "bob"
  ∧ connections (str "amy") self ∖ {[1]} = ∅
  ∧ ∃ rsA rsB,
      (_authorizeSocket (str "bob") 1 self).2 =
        Broadcast "leave" (MsgPresence (str "amy")) rsA ::
        (if hasSockets (str "bob") self then []
         else [Broadcast "join" (MsgPresence (str "bob")) rsB])
      ∧ (∀ t, t ∈ rsA ↔
           t = 1 ∨ (registered t self ∧ clientLogin self !! t ≠ str "amy"))
      ∧ (∀ t, t ∈ rsB ↔
           t ≠ 1 ∧ registered t self ∧ clientLogin self !! t ≠ str "bob").
Proof.
  split; [by vm_compute|]. split; [done|]. split; [done|].
  split; [by vm_compute|].
  apply (identity_switch_notifications
           (run [Connection 1; AuthEvent 1 (str "amy") (str "pw") Fulfilled;
                 Connection 2; AuthEvent 2 (str "zed") (str "pw") Fulfilled])
           1 (str "amy") (str "bob")); [by vm_compute|done|done|].
  by vm_compute.
Defined.

(** ** Falsy logins *)

(** The empty string is a login like any other for [_registerSocket], but
    [_unregisterSocket] and the handlers test the login for truthiness, and
    the empty string is falsy. *)

(** C9 at a socket authenticated under the empty login: the socket sits in
    the set of [""] and [_unregisterSocket] returns the server as it was,
    the socket still in that set. *)
Theorem unregister_keeps_empty_login_socket :
  let self := run [Connection 1; AuthEvent 1 (str "") (str "pw") Fulfilled] in
  clientLogin self !! 1 = str ""
  ∧ elements (connections (str "") self) = [1]
  ∧ _unregisterSocket 1 self = self.
Proof. by vm_compute. Qed.

(** C3 at a socket that authenticates under the empty login and then as
    ["bob"]: it ends up in the sets of both logins. *)
Theorem empty_login_socket_in_two_sets :
  let evs := [Connection 1; AuthEvent 1 (str "") (str "pw") Fulfilled;
              AuthEvent 1 (str "bob") (str "pw") Fulfilled] in
  well_formed evs = true
  ∧ elements (connections (str "") (run evs)) = [1]
  ∧ elements (connections (str "bob") (run evs)) = [1].
Proof. by vm_compute. Qed.

(** The other falsy values a payload can carry as login do the same.  With
    [login: null], which the authenticator looks up as the account
    ["null"], the socket enters a set under the key [null] and its
    disconnect leaves it there. *)
Example null_login_stays_registered :
  let evs := [Connection 1; AuthEvent 1 None (str "pw") Fulfilled; Disconnect 1] in
  well_formed evs = true
  ∧ elements (connections None (run evs)) = [1]
  ∧ is_live evs 1 = false.
Proof. by vm_compute. Qed.

(** What the claim about unregistering says, for a socket with a truthy
    login: the socket leaves the set of its login, every other set and every
    login stay, and whether the set emptied shows as the absence of the
    key. *)
Lemma unregister_bound_socket (self : ChatServer) (s : socket) (L : jslogin) :
  clientLogin self !! s = L → truthy L = true →
  (∀ k, connections k (_unregisterSocket s self) =
          if bool_decide (k = L) then connections k self ∖ {[s]}
          else connections k self)
  ∧ clientLogin (_unregisterSocket s self) = clientLogin self
  ∧ hasSockets L (_unregisterSocket s self) =
      negb (bool_decide (connections L self ∖ {[s]} = ∅)).
Proof.
  intros Hlogin HL. assert (truthy (clientLogin self !! s) = true) as Htr.
  { by rewrite Hlogin. }
  split; [|split].
  - intros k. by rewrite connections_unregister, Htr, Hlogin.
  - apply clientLogin_unregister.
  - rewrite <-Hlogin. by apply hasSockets_unregister.
Qed.

Lemma unregister_unbound_socket (self : ChatServer) (s : socket) :
  clientLogin self !! s = None → _unregisterSocket s self = self.
Proof. intros Hlogin. unfold _unregisterSocket. by rewrite Hlogin. Qed.

Lemma registry_consistent_step (ev : event) (self : ChatServer)
    (seen live seen' live' : gset socket) :
  truthy_login ev →
  lifecycle_step (seen, live) ev = Some (seen', live') →
  registry_consistent seen live self →
  registry_consistent seen' live' (server_after (step ev self)).
Proof.
  intros Hev Hlc (Hsub & Hreg).
  destruct ev as [s|s body|s login pw result|s login pw result|s|s type]; simpl in *.
  - case_bool_decide as Hs; [done|]. injection Hlc as <- <-.
    split; [set_solver|].
    intros t k Ht. destruct (Hreg t k Ht) as (Hseen & -> & Hk).
    split; [set_solver|]. split; [|done]. simpl.
    rewrite lookup_delete_ne; [done|]. by intros ->.
  - case_bool_decide; [|done]. injection Hlc as <- <-.
    by rewrite server_after_onChat.
  - case_bool_decide as Hs; [|done]. injection Hlc as <- <-.
    rewrite server_after_onAuth. destruct result; [|done].
    split; [done|].
    intros t k. rewrite connections_authorize.
    destruct (decide (t = s)) as [->|Hts].
    + rewrite clientLogin_authorize_eq. case_bool_decide as Hk.
      { intros _. by subst k. }
      intros Ht. exfalso.
      destruct (truthy _ && _) eqn:Hprev; [set_solver|].
      destruct (Hreg s k Ht) as (_ & -> & Hk').
      by rewrite Hk', bool_decide_eq_true_2 in Hprev.
    + rewrite clientLogin_authorize_ne by done. intros Ht. apply Hreg.
      case_bool_decide; [set_solver|].
      destruct (truthy _ && _); set_solver.
  - case_bool_decide; [|done]. injection Hlc as <- <-.
    by rewrite server_after_onRegister.
  - case_bool_decide as Hs; [|done]. injection Hlc as <- <-.
    split; [set_solver|].
    intros t k. rewrite connections_unregister, clientLogin_unregister.
    intros Ht. apply Hreg. destruct (truthy _ && _); set_solver.
  - case_bool_decide; [|done]. by injection Hlc as <- <-.
Qed.

Lemma registry_consistent_run (evs : list event) (seen live : gset socket) :
  Forall truthy_login evs →
  lifecycle evs = Some (seen, live) →
  registry_consistent seen live (run evs).
Proof.
  revert seen live. induction evs as [|ev evs IH] using rev_ind;
    intros seen live Hevs.
  - intros [= <- <-]. split; [done|].
    intros s k. unfold run, connections. simpl. rewrite lookup_empty.
    set_solver.
  - apply Forall_app in Hevs as [Hevs Hev%Forall_inv].
    rewrite lifecycle_snoc, run_snoc.
    destruct (lifecycle evs) as [[seen0 live0]|]; [|done]. simpl.
    intros Hlc.
    apply (registry_consistent_step ev (run evs) seen0 live0 seen live Hev Hlc).
    by apply IH.
Qed.

(** What the registry invariant says, away from the falsy logins: a key is
    present iff its set is non-empty, and a socket is in the set of at most
    one login. *)
Lemma registry_invariant_truthy_logins (evs : list event) :
  Forall truthy_login evs → well_formed evs = true →
  (∀ k, is_Some (userSockets (run evs) !! k) ↔ connections k (run evs) ≠ ∅)
  ∧ (∀ s k1 k2, s ∈ connections k1 (run evs) → s ∈ connections k2 (run evs) →
       k1 = k2).
Proof.
  intros Hevs. unfold well_formed. rewrite bool_decide_eq_true.
  intros [[seen live] Hlc]. split.
  - intros k. pose proof (hasSockets_connections k (run evs) (no_empty_sets_run evs)) as Hk.
    unfold hasSockets in Hk. split.
    + intros Hsome. rewrite bool_decide_eq_true_2 in Hk by done.
      symmetry in Hk. by rewrite negb_true_iff, bool_decide_eq_false in Hk.
    + intros Hnon. rewrite (bool_decide_eq_false_2 (_ = ∅)) in Hk by done.
      by rewrite bool_decide_eq_true in Hk.
  - intros s k1 k2 H1 H2.
    destruct (registry_consistent_run evs seen live Hevs Hlc) as (_ & Hreg).
    destruct (Hreg s k1 H1) as (_ & -> & _).
    by destruct (Hreg s k2 H2) as (_ & -> & _).
Qed.

(** * Further properties of the server *)

(** ** What an authorization establishes *)

(** After [_authorizeSocket(login, socket)] the socket carries the new
    login and sits in its set, whose key is present; and it has left the set
    of its previous login when that was a different, truthy one. *)
Theorem authorize_binds_socket (login : jslogin) (s : socket) (self : ChatServer) :
  let after := (_authorizeSocket login s self).1 in
  clientLogin after !! s = login
  ∧ s ∈ connections login after
  ∧ hasSockets login after = true
  ∧ ∀ previous, clientLogin self !! s = previous →
      truthy previous = true → previous ≠ login →
      s ∉ connections previous after.
Proof.
  cbv zeta. split; [|split; [|split]].
  - apply clientLogin_authorize_eq.
  - rewrite connections_authorize, bool_decide_eq_true_2 by done. set_solver.
  - unfold _authorizeSocket, _registerSocket, setLogin, hasSockets. simpl.
    rewrite lookup_partial_alter_eq, lookup_insert_eq.
    apply bool_decide_eq_true_2. by eexists.
  - intros previous Hprev Htr Hdiff. rewrite connections_authorize, Hprev.
    rewrite (bool_decide_eq_false_2 (previous = login)) by done.
    rewrite Htr, bool_decide_eq_true_2 by done.
    set_solver.
Qed.

(** ** Events of one socket and the other sockets *)

Lemma clientLogin_step_other (ev : event) (self : ChatServer) (t : socket) :
  t ≠ event_socket ev →
  clientLogin (server_after (step ev self)) !! t = clientLogin self !! t.
Proof.
  intros Ht. destruct ev as [s|s body|s login pw result|s login pw result|s|s type];
    simpl in *.
  - by rewrite lookup_delete_ne.
  - by rewrite server_after_onChat.
  - rewrite server_after_onAuth. destruct result; [|done].
    by rewrite clientLogin_authorize_ne.
  - by rewrite server_after_onRegister.
  - by rewrite clientLogin_unregister.
  - done.
Qed.

Lemma connections_step_other (ev : event) (self : ChatServer) (t : socket)
    (k : jslogin) :
  t ≠ event_socket ev →
  t ∈ connections k (server_after (step ev self)) ↔ t ∈ connections k self.
Proof.
  intros Ht. destruct ev as [s|s body|s login pw result|s login pw result|s|s type];
    simpl in *.
  - done.
  - by rewrite server_after_onChat.
  - rewrite server_after_onAuth. destruct result; [|done].
    rewrite connections_authorize. case_bool_decide; [set_solver|].
    destruct (truthy _ && _); set_solver.
  - by rewrite server_after_onRegister.
  - rewrite connections_unregister. destruct (truthy _ && _); set_solver.
  - done.
Qed.

(** Whatever event of a socket the server handles, and however the
    authenticator answered, every other socket keeps its login and stays in
    exactly the sets it was in. *)
Theorem step_leaves_other_sockets (ev : event) (self : ChatServer) (t : socket) :
  t ≠ event_socket ev →
  clientLogin (server_after (step ev self)) !! t = clientLogin self !! t
  ∧ ∀ k, t ∈ connections k (server_after (step ev self))
         ↔ t ∈ connections k self.
Proof.
  intros Ht. split; [by apply clientLogin_step_other|].
  intros k. by apply connections_step_other.
Qed.

Lemma step_leaves_other_sockets_witness :
  let self := run [Connection 1; AuthEvent 1 (str "amy") (str "pw") Fulfilled;
                   Connection 2; AuthEvent 2 (str "amy") (str "pw") Fulfilled] in
  let ev := AuthEvent 1 (str "bob") (str "pw") Fulfilled in
  2 ≠ event_socket ev
  ∧ clientLogin (server_after (step ev self)) !! 2 = clientLogin self !! 2
  ∧ ∀ k, 2 ∈ connections k (server_after (step ev self))
         ↔ 2 ∈ connections k self.
Proof.
  split; [by vm_compute|].
  apply (step_leaves_other_sockets
           (AuthEvent 1 (str "bob") (str "pw") Fulfilled)
           (run [Connection 1; AuthEvent 1 (str "amy") (str "pw") Fulfilled;
                 Connection 2; AuthEvent 2 (str "amy") (str "pw") Fulfilled]) 2).
  by vm_compute.
Defined.

(** ** Unregistering and registering *)

(** [_unregisterSocket] is idempotent: a second call changes nothing
    more, whatever the state and the login of the socket. *)
Theorem unregister_idempotent (s : socket) (self : ChatServer) :
  _unregisterSocket s (_unregisterSocket s self) = _unregisterSocket s self.
Proof.
  destruct self as [us cl]. unfold _unregisterSocket.
  cbn [userSockets clientLogin].
  destruct (negb (truthy (cl !! s))) eqn:Htr.
  { cbn [userSockets clientLogin]. by rewrite Htr. }
  set (rest := default ∅ (us !! (cl !! s)) ∖ {[s]}).
  destruct (decide (0 < size rest)) as [Hsz|Hsz].
  - rewrite (bool_decide_eq_true_2 (0 < size rest)) by done.
    cbn [userSockets clientLogin]. rewrite Htr, lookup_insert_eq.
    cbn [from_option id].
    assert (rest ∖ {[s]} = rest) as -> by (unfold rest; set_solver).
    rewrite (bool_decide_eq_true_2 (0 < size rest)) by done.
    by rewrite insert_insert_eq.
  - rewrite (bool_decide_eq_false_2 (0 < size rest)) by done.
    cbn [userSockets clientLogin]. rewrite Htr, lookup_delete_eq.
    cbn [from_option id].
    assert ((∅ : gset socket) ∖ {[s]} = ∅) as -> by set_solver.
    rewrite bool_decide_eq_false_2 by by intros ?%size_pos_nonempty.
    by rewrite delete_delete_eq.
Qed.

(** Registering a socket and unregistering it again restores the server,
    when the socket has a truthy login, is not in the set of that login,
    and that set is not an empty set stored under its key. *)
Theorem unregister_after_register (s : socket) (L : jslogin) (self : ChatServer) :
  clientLogin self !! s = L → truthy L = true →
  s ∉ connections L self →
  (userSockets self !! L) ≠ Some ∅ →
  _unregisterSocket s (_registerSocket s self) = self.
Proof.
  intros Hlogin HL Hs Hnon. destruct self as [us cl].
  unfold connections in Hs. cbn [userSockets clientLogin] in *.
  unfold _unregisterSocket, _registerSocket. cbn [userSockets clientLogin].
  rewrite Hlogin, HL, lookup_insert_eq.
  cbn [negb from_option id].
  set (S0 := default ∅ (us !! L)) in *.
  assert ((S0 ∪ {[s]}) ∖ {[s]} = S0) as -> by set_solver.
  subst S0.
  destruct (us !! L) as [S|] eqn:HS; cbn [from_option id].
  - assert (S ≠ ∅) as HSne by congruence.
    rewrite bool_decide_eq_true_2 by by apply size_pos_nonempty.
    rewrite insert_insert_eq. f_equal. by apply insert_id.
  - rewrite bool_decide_eq_false_2 by by intros ?%size_pos_nonempty.
    rewrite delete_insert_eq. f_equal. by apply delete_id.
Qed.

Lemma unregister_after_register_witness :
  let self := run [Connection 1; AuthEvent 1 (str "amy") (str "pw") Fulfilled;
                   Connection 2; AuthEvent 2 (str "amy") (str "pw") Fulfilled;
                   Disconnect 1] in
  clientLogin self !! 1 = str "amy" ∧ truthy (str "amy") = true
  ∧ (1 ∉ connections (str "amy") self)
  ∧ (userSockets self !! str "amy") ≠ Some ∅
  ∧ _unregisterSocket 1 (_registerSocket 1 self) = self.
Proof.
  split; [by vm_compute|]. split; [done|].
  split; [by vm_compute|]. split; [by vm_compute|].
  apply (unregister_after_register 1 (str "amy")
           (run [Connection 1; AuthEvent 1 (str "amy") (str "pw") Fulfilled;
                 Connection 2; AuthEvent 2 (str "amy") (str "pw") Fulfilled;
                 Disconnect 1])); by vm_compute.
Defined.

(** ** The keys of the registry *)

Lemma keys_unregister (s : socket) (k : jslogin) (self : ChatServer) :
  is_Some (userSockets (_unregisterSocket s self) !! k) →
  is_Some (userSockets self !! k).
Proof.
  unfold _unregisterSocket. destruct (negb _); [done|].
  case_bool_decide as Hsz; simpl.
  - rewrite lookup_insert. case_decide as Hk; [|done]. subst k. intros _.
    apply size_pos_nonempty in Hsz.
    destruct (userSockets self !! (clientLogin self !! s)) eqn:HS; [done|].
    exfalso. apply Hsz. simpl. set_solver.
  - rewrite lookup_delete. by case_decide.
Qed.

Lemma keys_step (ev : event) (k : jslogin) (self : ChatServer) :
  is_Some (userSockets (server_after (step ev self)) !! k) →
  is_Some (userSockets self !! k)
  ∨ ∃ s password, ev = AuthEvent s k password Fulfilled.
Proof.
  destruct ev as [s|s body|s login pw result|s login pw result|s|s type]; simpl.
  - by left.
  - rewrite server_after_onChat. by left.
  - rewrite server_after_onAuth. destruct result; [|by left].
    unfold _authorizeSocket, _registerSocket, setLogin. simpl.
    rewrite lookup_partial_alter_eq, lookup_insert. case_decide as Hk.
    + subst k. intros _. right. by exists s, pw.
    + intros Hsome. left. by eapply keys_unregister.
  - rewrite server_after_onRegister. by left.
  - intros Hsome. left. by eapply keys_unregister.
  - by left.
Qed.

(** The keys of the registry are logins under which an authentication
    succeeded: the map has a key only if a fulfilled authentication carried
    that very value as [login].  So it has the key [null], or a number, only
    after a payload with such a login has been accepted by the
    authenticator. *)
Theorem registry_keys_are_authenticated_logins (evs : list event) (k : jslogin) :
  is_Some (userSockets (run evs) !! k) →
  ∃ s password, AuthEvent s k password Fulfilled ∈ evs.
Proof.
  induction evs as [|ev evs IH] using rev_ind.
  - unfold run. simpl. rewrite lookup_empty. by intros [? [=]].
  - rewrite run_snoc. intros [Hk|(s & pw & ->)]%keys_step.
    + destruct (IH Hk) as (s & pw & Hin). exists s, pw.
      apply elem_of_app. by left.
    + exists s, pw. apply elem_of_app. right. by apply list_elem_of_singleton.
Qed.

Lemma registry_keys_are_authenticated_logins_witness :
  let evs := [Connection 1; AuthEvent 1 None (str "pw") Fulfilled] in
  is_Some (userSockets (run evs) !! None)
  ∧ ∃ s password, AuthEvent s None password Fulfilled ∈ evs.
Proof.
  assert (is_Some (userSockets
            (run [Connection 1; AuthEvent 1 None (str "pw") Fulfilled]) !! None))
    as Hkey by (vm_compute; by eexists).
  split; [done|].
  exact (registry_keys_are_authenticated_logins
           [Connection 1; AuthEvent 1 None (str "pw") Fulfilled] None Hkey).
Defined.

(** ** Registered sockets that are not connected *)

Lemma disconnected_in_run (evs : list event) (seen live : gset socket)
    (s : socket) :
  lifecycle evs = Some (seen, live) → s ∈ seen → s ∉ live →
  Disconnect s ∈ evs.
Proof.
  revert seen live. induction evs as [|ev evs IH] using rev_ind;
    intros seen live.
  - intros [= <- <-]. set_solver.
  - rewrite lifecycle_snoc.
    destruct (lifecycle evs) as [[seen0 live0]|] eqn:Hlc0; [|done]. simpl.
    intros Hlc Hseen Hlive. rewrite elem_of_app.
    destruct ev as [s'|s' body|s' login pw result|s' login pw result|s'|s' type];
      simpl in Hlc; case_bool_decide; try done; injection Hlc as <- <-.
    + left. apply (IH seen0 live0); [done|set_solver..].
    + left. by apply (IH seen0 live0).
    + left. by apply (IH seen0 live0).
    + left. by apply (IH seen0 live0).
    + destruct (decide (s = s')) as [->|Hne].
      * right. by apply list_elem_of_singleton.
      * left. apply (IH seen0 live0); [done..|set_solver].
    + left. by apply (IH seen0 live0).
Qed.

Lemma settled_after_disconnect_snoc (evs : list event) (ev : event) (s : socket) :
  settled_after_disconnect evs s → settled_after_disconnect (evs ++ [ev]) s.
Proof.
  intros (before & between & login & password & rest & ->).
  exists before, between, login, password, (rest ++ [ev])%list.
  rewrite <-app_assoc. simpl. by rewrite <-app_assoc.
Qed.

Lemma registered_live_or_late (evs : list event) (seen live : gset socket) :
  Forall truthy_login evs →
  lifecycle evs = Some (seen, live) →
  ∀ s, registered s (run evs) → s ∈ live ∨ settled_after_disconnect evs s.
Proof.
  revert seen live. induction evs as [|ev evs IH] using rev_ind;
    intros seen live Hevs.
  - intros _ s [k Hk]. unfold run, connections in Hk. simpl in Hk.
    rewrite lookup_empty in Hk. set_solver.
  - apply Forall_app in Hevs as [Hevs Hev%Forall_inv].
    rewrite lifecycle_snoc, run_snoc.
    destruct (lifecycle evs) as [[seen0 live0]|] eqn:Hlc0; [|done]. simpl.
    intros Hlc s [k Hk].
    pose proof (registry_consistent_run evs seen0 live0 Hevs Hlc0)
      as (_ & Hreg).
    specialize (IH seen0 live0 Hevs eq_refl).
    destruct (decide (s = event_socket ev)) as [->|Hs].
    + destruct ev as [s|s body|s login pw result|s login pw result|s|s type];
        simpl in *.
      * case_bool_decide; [done|]. injection Hlc as <- <-. left. set_solver.
      * case_bool_decide; [|done]. injection Hlc as <- <-. by left.
      * case_bool_decide as Hseen; [|done]. injection Hlc as <- <-.
        destruct (decide (s ∈ live0)) as [Hlive|Hdead]; [by left|].
        rewrite server_after_onAuth in Hk. destruct result.
        -- right.
           apply (disconnected_in_run evs seen0 live0 s Hlc0 Hseen),
             list_elem_of_split in Hdead as (before & between & ->).
           exists before, between, login, pw, []. by rewrite <-app_assoc.
        -- destruct (IH s) as [?|Hlate]; [by exists k|done|].
           right. by apply settled_after_disconnect_snoc.
      * case_bool_decide; [|done]. injection Hlc as <- <-.
        rewrite server_after_onRegister in Hk.
        destruct (IH s) as [?|Hlate]; [by exists k|by left|].
        right. by apply settled_after_disconnect_snoc.
      * exfalso. rewrite connections_unregister in Hk.
        destruct (truthy _ && _) eqn:Hprev; [set_solver|].
        destruct (Hreg s k Hk) as (_ & -> & Hk').
        by rewrite Hk', bool_decide_eq_true_2 in Hprev.
      * case_bool_decide; [|done]. injection Hlc as <- <-. by left.
    + apply connections_step_other in Hk; [|done].
      destruct (IH s) as [Hlive|Hlate]; [by exists k| |].
      * left.
        destruct ev as [s'|s' body|s' login pw result|s' login pw result|s'|s' type];
          simpl in *; case_bool_decide; try done;
          injection Hlc as <- <-; set_solver.
      * right. by apply settled_after_disconnect_snoc.
Qed.

(** In a run in which no authentication succeeds under a falsy login,
    every socket in the registry is connected, or has disconnected and had
    an authentication fulfilled after that. *)
Theorem registered_sockets_are_live_or_late (evs : list event) (s : socket) :
  Forall truthy_login evs → well_formed evs = true →
  registered s (run evs) →
  is_live evs s = true ∨ settled_after_disconnect evs s.
Proof.
  intros Hevs. unfold well_formed, is_live. rewrite bool_decide_eq_true.
  intros [[seen live] Hlc] Hs. rewrite Hlc. rewrite bool_decide_eq_true.
  by eapply registered_live_or_late.
Qed.

Lemma registered_sockets_are_live_or_late_witness :
  let evs := [Connection 1; AuthEvent 1 (str "amy") (str "pw") Fulfilled;
              Connection 2; AuthEvent 2 (str "amy") (str "pw") Fulfilled;
              Disconnect 1; AuthEvent 1 (str "bob") (str "pw") Fulfilled] in
  Forall truthy_login evs ∧ well_formed evs = true
  ∧ registered 1 (run evs)
  ∧ (is_live evs 1 = true ∨ settled_after_disconnect evs 1).
Proof.
  assert (Forall truthy_login
            [Connection 1; AuthEvent 1 (str "amy") (str "pw") Fulfilled;
             Connection 2; AuthEvent 2 (str "amy") (str "pw") Fulfilled;
             Disconnect 1; AuthEvent 1 (str "bob") (str "pw") Fulfilled])
    as Hevs by (repeat constructor; done).
  assert (registered 1
            (run [Connection 1; AuthEvent 1 (str "amy") (str "pw") Fulfilled;
                  Connection 2; AuthEvent 2 (str "amy") (str "pw") Fulfilled;
                  Disconnect 1; AuthEvent 1 (str "bob") (str "pw") Fulfilled]))
    as Hreg by (exists (str "bob"); by vm_compute).
  split; [done|]. split; [by vm_compute|]. split; [done|].
  apply (registered_sockets_are_live_or_late
           [Connection 1; AuthEvent 1 (str "amy") (str "pw") Fulfilled;
            Connection 2; AuthEvent 2 (str "amy") (str "pw") Fulfilled;
            Disconnect 1; AuthEvent 1 (str "bob") (str "pw") Fulfilled] 1);
    [done|by vm_compute|done].
Defined.

(** ** Who receives what *)

(** The effects of a handler, with the state in which its broadcasts pick
    their recipients: a direct [emit] carries a result and goes to the socket
    of the event; a presence broadcast for [L] filters on the login being
    other than [L]; a chat broadcast filters on the socket being other than
    the sender. *)
Lemma effects_of_step (ev : event) (self : ChatServer) (e : effect) :
  e ∈ effects (step ev self) →
  let after := server_after (step ev self) in
  match e with
  | Emit to type (MsgSuccess _ | MsgFailure _) =>
      to = event_socket ev ∧ (type = "auth" ∨ type = "register")
  | Emit _ _ _ => False
  | Broadcast type (MsgPresence L) rs =>
      (type = "join" ∨ type = "leave")
      ∧ rs = recipients (MsgPresence L) (otherUser L after) after
  | Broadcast type (MsgChat from body) rs =>
      type = "chat"
      ∧ rs = recipients (MsgChat from body)
               (λ r, negb (bool_decide (r = event_socket ev))) after
  | Broadcast _ _ _ => False
  | Log _ _ => True
  end.
Proof.
  destruct ev as [s|s body|s login pw result|s login pw result|s|s type];
    cbn [step event_socket].
  - by intros ?%elem_of_nil.
  - rewrite server_after_onChat. unfold onChat.
    destruct (negb _); [destruct (nullish body)|]; cbn [effects].
    + by intros ?%elem_of_nil.
    + by intros ->%list_elem_of_singleton.
    + intros [->| ->%list_elem_of_singleton]%elem_of_cons; [done|].
      by unfold _broadcastMessage.
  - rewrite server_after_onAuth, effects_onAuth. destruct result.
    + rewrite effects_authorize. cbv zeta.
      intros [->|He]%elem_of_cons; [by split; [|left]|].
      set (after := (_authorizeSocket login s self).1) in *.
      apply elem_of_app in He as [He|He].
      * destruct (_ && _); [|by apply elem_of_nil in He].
        apply list_elem_of_singleton in He as ->.
        unfold _notifyUserLeave, _broadcastMessage. by split; [right|].
      * destruct (negb _); [|by apply elem_of_nil in He].
        apply list_elem_of_singleton in He as ->.
        unfold _notifyUserJoin, _broadcastMessage. by split; [left|].
    + intros ->%list_elem_of_singleton. by split; [|left].
  - rewrite server_after_onRegister.
    destruct result; intros ->%list_elem_of_singleton; by split; [|right].
  - rewrite effects_onDisconnect. cbv zeta.
    assert (server_after (onDisconnect s self) = _unregisterSocket s self)
      as -> by done.
    destruct (_ && _); [|by intros ?%elem_of_nil].
    intros ->%list_elem_of_singleton.
    unfold _notifyUserLeave, _broadcastMessage. by split; [right|].
  - by intros ?%elem_of_nil.
Qed.

Lemma elem_of_emissions (out : list effect) (to : socket) (type : string)
    (msg : message) :
  (to, type, msg) ∈ emissions out ↔
  Emit to type msg ∈ out ∨ ∃ rs, Broadcast type msg rs ∈ out ∧ to ∈ rs.
Proof.
  unfold emissions. rewrite list_elem_of_bind. split.
  - intros ([to' type' msg'|type' msg' rs|level what] & Hin & He); simpl in Hin.
    + apply list_elem_of_singleton in Hin as [= -> -> ->]. by left.
    + apply list_elem_of_fmap in Hin as (r & [= -> -> ->] & Hr).
      right. by exists rs.
    + by apply elem_of_nil in Hin.
  - intros [He|(rs & He & Hr)].
    + exists (Emit to type msg). split; [|done]. by apply list_elem_of_singleton.
    + exists (Broadcast type msg rs). split; [|done]. simpl.
      apply list_elem_of_fmap. by exists to.
Qed.

(** The delivery rules, for every single [emit] of every handler: a result
    of authentication or registration goes to the socket that asked; a
    [join] or [leave] for login [L] goes to a socket whose login is not [L]
    (so never to a socket of the login that joins or leaves); a chat message
    goes to a socket other than its sender; and no other combination of
    event type and message is ever emitted. *)
Theorem delivery_rules (ev : event) (self : ChatServer) (to : socket)
    (type : string) (msg : message) :
  (to, type, msg) ∈ emissions (effects (step ev self)) →
  match msg with
  | MsgPresence L =>
      (type = "join" ∨ type = "leave")
      ∧ clientLogin (server_after (step ev self)) !! to ≠ L
  | MsgChat _ _ => type = "chat" ∧ to ≠ event_socket ev
  | MsgSuccess _ | MsgFailure _ =>
      (type = "auth" ∨ type = "register") ∧ to = event_socket ev
  end.
Proof.
  intros [He|(rs & He & Hto)]%elem_of_emissions;
    apply effects_of_step in He; cbv zeta in He.
  - destruct msg as [L|from body|login|error]; try done; by destruct He.
  - destruct msg as [L|from body|login|error]; try done.
    + destruct He as [Htype ->]. split; [done|].
      apply elem_of_recipients in Hto as [Hfilter _].
      unfold otherUser in Hfilter.
      by rewrite negb_true_iff, bool_decide_eq_false in Hfilter.
    + destruct He as [Htype ->]. split; [done|].
      apply elem_of_recipients in Hto as [Hfilter _].
      by rewrite negb_true_iff, bool_decide_eq_false in Hfilter.
Qed.

Lemma delivery_rules_witness :
  let self := run [Connection 1; AuthEvent 1 (str "amy") (str "pw") Fulfilled;
                   Connection 2; AuthEvent 2 (str "bob") (str "pw") Fulfilled] in
  let ev := Disconnect 2 in
  (1, "leave", MsgPresence (str "bob")) ∈ emissions (effects (step ev self))
  ∧ ("leave" = "join" ∨ "leave" = "leave")
  ∧ clientLogin (server_after (step ev self)) !! 1 ≠ str "bob".
Proof.
  assert ((1, "leave", MsgPresence (str "bob")) ∈
            emissions (effects (step (Disconnect 2)
              (run [Connection 1; AuthEvent 1 (str "amy") (str "pw") Fulfilled;
                    Connection 2; AuthEvent 2 (str "bob") (str "pw") Fulfilled]))))
    as Hin by (vm_compute; apply list_elem_of_here).
  split; [done|].
  exact (delivery_rules (Disconnect 2)
           (run [Connection 1; AuthEvent 1 (str "amy") (str "pw") Fulfilled;
                 Connection 2; AuthEvent 2 (str "bob") (str "pw") Fulfilled])
           1 "leave" (MsgPresence (str "bob")) Hin).
Defined.

(** Nothing is ever emitted to a bystander: every [emit] of every handler
    goes to the socket of the event or to a socket that is in the
    registry. *)
Theorem emissions_reach_requester_or_registered (ev : event) (self : ChatServer)
    (to : socket) (type : string) (msg : message) :
  (to, type, msg) ∈ emissions (effects (step ev self)) →
  to = event_socket ev ∨ registered to (server_after (step ev self)).
Proof.
  intros [He|(rs & He & Hto)]%elem_of_emissions;
    apply effects_of_step in He; cbv zeta in He.
  - left. destruct msg as [L|from body|login|error]; try done; by destruct He.
  - right. destruct msg as [L|from body|login|error]; try done;
      destruct He as [_ ->]; by apply elem_of_recipients in Hto as [_ ?].
Qed.

Lemma emissions_reach_requester_or_registered_witness :
  let self := run [Connection 1; AuthEvent 1 (str "amy") (str "pw") Fulfilled;
                   Connection 2; AuthEvent 2 (str "bob") (str "pw") Fulfilled;
                   Connection 3] in
  let ev := ChatEvent 1 (str "hi") in
  (2, "chat", MsgChat (str "amy") (str "hi")) ∈ emissions (effects (step ev self))
  ∧ (2 = event_socket ev ∨ registered 2 (server_after (step ev self))).
Proof.
  assert ((2, "chat", MsgChat (str "amy") (str "hi")) ∈
            emissions (effects (step (ChatEvent 1 (str "hi"))
              (run [Connection 1; AuthEvent 1 (str "amy") (str "pw") Fulfilled;
                    Connection 2; AuthEvent 2 (str "bob") (str "pw") Fulfilled;
                    Connection 3]))))
    as Hin by (vm_compute; apply list_elem_of_here).
  split; [done|].
  exact (emissions_reach_requester_or_registered (ChatEvent 1 (str "hi"))
           (run [Connection 1; AuthEvent 1 (str "amy") (str "pw") Fulfilled;
                 Connection 2; AuthEvent 2 (str "bob") (str "pw") Fulfilled;
                 Connection 3])
           2 "chat" (MsgChat (str "amy") (str "hi")) Hin).
Defined.

(** ** No double delivery *)

Lemma recipients_NoDup (msg : message) (f : socket → bool) (self : ChatServer) :
  (∀ s k1 k2, s ∈ connections k1 self → s ∈ connections k2 self → k1 = k2) →
  NoDup (recipients msg f self).
Proof.
  intros Hone. unfold recipients. apply NoDup_bind.
  - intros [k1 S1] [k2 S2] r H1 H2 Hr1 Hr2. simpl in *.
    apply elem_of_map_to_list in H1, H2.
    apply list_elem_of_In, filter_In in Hr1 as [Hr1 _].
    apply filter_In in Hr1 as [Hr1 _].
    apply list_elem_of_In, filter_In in Hr2 as [Hr2 _].
    apply filter_In in Hr2 as [Hr2 _].
    apply list_elem_of_In, elem_of_elements in Hr1, Hr2.
    assert (k1 = k2) as <-.
    { apply (Hone r); unfold connections; by rewrite ?H1, ?H2. }
    congruence.
  - intros [k S] _. simpl.
    apply NoDup_ListNoDup, List.NoDup_filter, List.NoDup_filter, NoDup_ListNoDup.
    apply NoDup_elements.
  - apply NoDup_map_to_list.
Qed.

(** In a run in which no authentication succeeds under a falsy login, no
    broadcast lists a socket twice: a connection gets each chat message,
    join and leave at most once.  This holds also when promises settle after
    the disconnect of their socket. *)
Theorem broadcast_reaches_socket_once (evs : list event) (ev : event)
    (type : string) (msg : message) (rs : list socket) :
  Forall truthy_login (evs ++ [ev]) → well_formed (evs ++ [ev]) = true →
  Broadcast type msg rs ∈ effects (step ev (run evs)) →
  NoDup rs.
Proof.
  intros Hevs Hwf He.
  destruct (registry_invariant_truthy_logins _ Hevs Hwf) as [_ Hone].
  rewrite run_snoc in Hone.
  apply effects_of_step in He. cbv zeta in He.
  destruct msg as [L|from body|login|error]; try done;
    destruct He as [_ ->]; by apply recipients_NoDup.
Qed.

Lemma broadcast_reaches_socket_once_witness :
  let evs := [Connection 1; AuthEvent 1 (str "amy") (str "pw") Fulfilled;
              Connection 2; AuthEvent 2 (str "bob") (str "pw") Fulfilled;
              Connection 3; AuthEvent 3 (str "amy") (str "pw") Fulfilled] in
  let ev := ChatEvent 1 (str "hi") in
  Forall truthy_login (evs ++ [ev]) ∧ well_formed (evs ++ [ev]) = true
  ∧ Broadcast "chat" (MsgChat (str "amy") (str "hi")) [3; 2]
      ∈ effects (step ev (run evs))
  ∧ NoDup [3; 2].
Proof.
  assert (Forall truthy_login
            ([Connection 1; AuthEvent 1 (str "amy") (str "pw") Fulfilled;
              Connection 2; AuthEvent 2 (str "bob") (str "pw") Fulfilled;
              Connection 3; AuthEvent 3 (str "amy") (str "pw") Fulfilled]
             ++ [ChatEvent 1 (str "hi")]))
    as Hevs by (repeat constructor; done).
  assert (Broadcast "chat" (MsgChat (str "amy") (str "hi")) [3; 2]
            ∈ effects (step (ChatEvent 1 (str "hi"))
                (run [Connection 1; AuthEvent 1 (str "amy") (str "pw") Fulfilled;
                      Connection 2; AuthEvent 2 (str "bob") (str "pw") Fulfilled;
                      Connection 3; AuthEvent 3 (str "amy") (str "pw") Fulfilled])))
    as Hin by (vm_compute; apply list_elem_of_further, list_elem_of_here).
  split; [done|]. split; [by vm_compute|]. split; [done|].
  apply (broadcast_reaches_socket_once
           [Connection 1; AuthEvent 1 (str "amy") (str "pw") Fulfilled;
            Connection 2; AuthEvent 2 (str "bob") (str "pw") Fulfilled;
            Connection 3; AuthEvent 3 (str "amy") (str "pw") Fulfilled]
           (ChatEvent 1 (str "hi")) "chat" (MsgChat (str "amy") (str "hi")) [3; 2]);
    [done|by vm_compute|done].
Defined.

(** ** Joins, leaves and who is online *)

Lemma transitions_balance (evs : list event) (L : jslogin) :
  transitions (appears L) emptyServer evs
  = transitions (vanishes L) emptyServer evs
    + (if bool_decide (connections L (run evs) = ∅) then 0 else 1).
Proof.
  induction evs as [|ev evs IH] using rev_ind; [done|].
  rewrite !transitions_snoc, IH. fold (run evs). cbv zeta. rewrite <-run_snoc.
  unfold appears, vanishes.
  destruct (bool_decide (connections L (run evs) = ∅)),
    (bool_decide (connections L (run (evs ++ [ev])) = ∅)); simpl; lia.
Qed.

(** Whatever the events and their order, promises that settle late
    included.  At every step [join] is broadcast for a login once if its set
    goes from empty to non-empty and not at all otherwise; [leave] is
    broadcast once if its set goes from non-empty to empty, and never more
    than once; and each such broadcast goes to exactly the sockets of the
    registry whose login is another one.  Over the run the joins are as many
    as the transitions from empty to non-empty and the leaves at least as
    many as the transitions from non-empty to empty; so a login for which
    more joins than leaves have been broadcast has a socket in the
    registry. *)
Theorem joins_exact_leaves_at_least (evs : list event) (L : jslogin) :
  (∀ before ev rest, evs = (before ++ ev :: rest)%list →
     let after := run (before ++ [ev]) in
     let out := effects (step ev (run before)) in
     presence_count "join" L out
       = (if appears L (run before) after then 1 else 0)
     ∧ ((if vanishes L (run before) after then 1 else 0)
        ≤ presence_count "leave" L out)%nat
     ∧ (presence_count "leave" L out ≤ 1)%nat
     ∧ ∀ type rs, Broadcast type (MsgPresence L) rs ∈ out →
         ∀ t, t ∈ rs ↔ registered t after ∧ clientLogin after !! t ≠ L)
  ∧ presence_count "join" L (observed emptyServer evs)
    = transitions (appears L) emptyServer evs
  ∧ (transitions (vanishes L) emptyServer evs
     ≤ presence_count "leave" L (observed emptyServer evs))%nat
  ∧ (presence_count "join" L (observed emptyServer evs)
     ≤ presence_count "leave" L (observed emptyServer evs)
       + (if bool_decide (connections L (run evs) = ∅) then 0 else 1))%nat.
Proof.
  split.
  - intros before ev rest _. cbv zeta. rewrite run_snoc.
    destruct (presence_step ev (run before) L (no_empty_sets_run before))
      as (Hjoin & Hleave & Honce & _).
    split; [done|]. split; [done|]. split; [done|].
    intros type rs [_ ->]%effects_of_step t.
    rewrite elem_of_recipients. unfold otherUser.
    rewrite negb_true_iff, bool_decide_eq_false. naive_solver.
  - destruct (presence_run evs L) as [Hjoin Hleave].
    pose proof (transitions_balance evs L) as Hbalance.
    split; [done|]. split; [done|]. lia.
Qed.

(** * The LevelDB authenticator: registration and authentication *)

Module LevelAuthenticatorFacts.

Import LevelAuthenticator.

Section facts.

Variable hash : string → string → string.
Variable compare : string → string → bool.


Lemma chain_exec_snoc (acts : list action) (a : action) (self : authenticator) :
  exec hash (acts ++ [a]) self = step hash a (exec hash acts self).
Proof. unfold exec. by rewrite fold_left_app. Qed.

Lemma exec_app (acts acts' : list action) (self : authenticator) :
  exec hash (acts ++ acts') self = exec hash acts' (exec hash acts self).
Proof. unfold exec. by rewrite fold_left_app. Qed.

Lemma fulfilled_snoc (l : string) (results : list (request * settlement))
    (r : request) (res : settlement) :
  fulfilled l (results ++ [(r, res)]) =
  fulfilled l results
  + match res with
    | Ok => if String.eqb (login r) l then 1 else 0
    | Err _ => 0
    end.
Proof.
  unfold fulfilled. rewrite List.filter_app, length_app. simpl.
  destruct res; [|done]. by destruct (String.eqb _ _).
Qed.

Lemma fulfilled_zero (l : string) (results : list (request * settlement)) :
  (∀ r, (r, Ok) ∈ results → login r ≠ l) → fulfilled l results = 0.
Proof.
  induction results as [|[r res] results IH]; intros Hnone; [done|].
  unfold fulfilled in *. simpl.
  destruct res as [|e]; simpl.
  - destruct (String.eqb_spec (login r) l) as [Heq|Hne].
    + destruct (Hnone r); [apply list_elem_of_here|done].
    + apply IH. intros r' Hr'. apply Hnone. by apply list_elem_of_further.
  - apply IH. intros r' Hr'. apply Hnone. by apply list_elem_of_further.
Qed.

Lemma reachable_invariant_init (db0 : gmap string string) :
  reachable_invariant hash db0 (init db0).
Proof.
  split; simpl.
  - done.
  - done.
  - done.
  - intros key h Hkey. by left.
  - intros r Hr. by apply elem_of_nil in Hr.
  - intros l. unfold fulfilled. simpl. lia.
  - intros _ x Hx. by apply elem_of_nil in Hx.
  - done.
Qed.

(** A promise of the chain is rejected: the store stays, no registration
    is running afterwards, and the rejections pile up. *)
Lemma reachable_invariant_reject (db0 : gmap string string)
    (self : authenticator) (r : request) (e : failure) (rest : list request) :
  reachable_invariant hash db0 self →
  (chain self = None ∨ chain self = Some e) →
  reachable_invariant hash db0
    (Authenticator (db self) (Some e) None rest (settled self ++ [(r, Err e)])).
Proof.
  intros [Hfresh Hunp Hkept Horigin Hstored Honce Hok Herr] Hchain.
  split; simpl.
  - done.
  - done.
  - done.
  - intros key h Hkey. destruct (Horigin key h Hkey) as [?|(r' & salt & ? & ?)];
      [by left|right]. exists r', salt. split; [|done].
    apply elem_of_app. by left.
  - intros r' [Hr'|Hr']%elem_of_app; [by apply Hstored|].
    by apply list_elem_of_singleton in Hr'.
  - intros l. rewrite fulfilled_snoc. specialize (Honce l). lia.
  - done.
  - intros e' [= <-]. destruct Hchain as [Hnone|Hsome].
    + exists (settled self), [(r, Err e)]. split; [done|].
      split; [|split; [done|by apply Forall_singleton]].
      apply Forall_forall. intros x Hx. by apply Hok.
    + destruct (Herr e Hsome) as (oks & errs & Hsettled & Hoks & Hne & Herrs).
      exists oks, (errs ++ [(r, Err e)])%list. rewrite Hsettled, app_assoc.
      split; [done|]. split; [done|]. split; [by destruct errs|].
      apply Forall_app. split; [done|]. by apply Forall_singleton.
Qed.

Lemma reachable_invariant_step (db0 : gmap string string) (a : action)
    (self : authenticator) :
  reachable_invariant hash db0 self →
  reachable_invariant hash db0 (step hash a self).
Proof.
  intros Hinv.
  destruct a as [l p|salt fault|fault|l p]; simpl; [|..|done].
  - destruct Hinv. by split.
  - destruct (running self) as [x|] eqn:Hrun; [done|].
    destruct (waiting self) as [|r rest] eqn:Hwait; [done|].
    destruct (chain self) as [e|] eqn:Hchain.
    { unfold settle. rewrite Hwait. simpl.
      apply reachable_invariant_reject; [done|by right]. }
    destruct fault as [message|].
    { unfold settle. rewrite Hwait. simpl.
      apply reachable_invariant_reject; [done|by left]. }
    destruct (db self !! userKey (login r)) as [h|] eqn:Hkey.
    { unfold settle. rewrite Hwait. simpl.
      apply reachable_invariant_reject; [done|by left]. }
    destruct Hinv as [Hfresh Hunp Hkept Horigin Hstored Honce Hok Herr].
    split; simpl.
    + intros r' h' [= <- <-]. split; [done|]. by exists salt.
    + done.
    + exact Hkept.
    + exact Horigin.
    + exact Hstored.
    + exact Honce.
    + intros _. by apply Hok.
    + done.
  - destruct (running self) as [[r h]|] eqn:Hrun; [|done].
    pose proof Hinv as [Hfresh Hunp Hkept Horigin Hstored Honce Hok Herr].
    destruct (Hfresh r h Hrun) as [Hfree [salt ->]].
    assert (chain self = None) as Hchain by by eapply Hunp.
    destruct fault as [message|].
    { apply reachable_invariant_reject; [done|by left]. }
    split; simpl.
    + done.
    + done.
    + intros key h Hkey. rewrite lookup_insert_ne; [by apply Hkept|].
      intros <-. apply Hkept in Hkey. congruence.
    + intros key h. rewrite lookup_insert. case_decide as Hk.
      * intros [= <-]. right. exists r, salt. split; [|done].
        apply elem_of_app. right. by apply list_elem_of_singleton.
      * intros Hkey. destruct (Horigin key h Hkey) as [?|(r' & salt' & ? & ?)];
          [by left|right]. exists r', salt'. split; [|done].
        apply elem_of_app. by left.
    + intros r' [Hr'|Hr']%elem_of_app.
      * destruct (Hstored r' Hr') as [Hnew [salt' Hold]]. split; [done|].
        exists salt'. rewrite lookup_insert_ne; [done|]. congruence.
      * apply list_elem_of_singleton in Hr' as [= ->]. split.
        -- destruct (db0 !! userKey (login r)) as [h|] eqn:H0; [|done].
           apply Hkept in H0. congruence.
        -- exists salt. by rewrite lookup_insert_eq.
    + intros l. rewrite fulfilled_snoc.
      destruct (String.eqb_spec (login r) l) as [<-|Hne];
        [|specialize (Honce l); lia].
      rewrite fulfilled_zero; [lia|].
      intros r' Hr' Heq. destruct (Hstored r' Hr') as [_ [salt' Hold]].
      rewrite Heq in Hold. congruence.
    + intros _ x [Hx|Hx]%elem_of_app; [by apply Hok|].
      by apply list_elem_of_singleton in Hx as ->.
    + done.
Qed.

Lemma reachable_invariant_exec (db0 : gmap string string) (acts : list action) :
  reachable_invariant hash db0 (exec hash acts (init db0)).
Proof.
  induction acts as [|a acts IH] using rev_ind.
  - apply reachable_invariant_init.
  - rewrite chain_exec_snoc. by apply reachable_invariant_step.
Qed.

Lemma db_step_kept (db0 : gmap string string) (a : action) (self : authenticator)
    (key h : string) :
  reachable_invariant hash db0 self →
  db self !! key = Some h → db (step hash a self) !! key = Some h.
Proof.
  intros Hinv Hkey. destruct a as [l p|salt fault|fault|l p]; simpl; try done.
  - destruct (running self); [done|]. destruct (waiting self); [done|].
    destruct (chain self); [done|]. destruct fault; [done|].
    by destruct (db self !! userKey (login r)).
  - destruct (running self) as [[r h']|] eqn:Hrun; [|done].
    destruct fault; [done|]. simpl.
    destruct (running_fresh _ _ _ Hinv r h' Hrun) as [Hfree _].
    rewrite lookup_insert_ne; [done|]. congruence.
Qed.

(** Whatever is called and however the steps interleave, a binding of the
    store never changes once it is there: registering again does not replace
    the password hash of an existing account. *)
Theorem stored_hash_never_changes (db0 : gmap string string)
    (acts acts' : list action) (key h : string) :
  db (exec hash acts (init db0)) !! key = Some h →
  db (exec hash (acts ++ acts') (init db0)) !! key = Some h.
Proof.
  intros Hkey. induction acts' as [|a acts' IH] using rev_ind.
  - by rewrite app_nil_r.
  - rewrite app_assoc, chain_exec_snoc.
    apply (db_step_kept db0); [apply reachable_invariant_exec|done].
Qed.

(** Of the registrations of one login at most one is fulfilled, and none
    if the login was in the store from the start, in every schedule. *)
Theorem one_registration_per_login (db0 : gmap string string)
    (acts : list action) (l : string) :
  (fulfilled l (settled (exec hash acts (init db0))) ≤ 1)%nat
  ∧ (is_Some (db0 !! userKey l) →
       fulfilled l (settled (exec hash acts (init db0))) = 0).
Proof.
  pose proof (reachable_invariant_exec db0 acts) as Hinv. split.
  - apply (fulfilled_once _ _ _ Hinv).
  - intros [h Hl]. apply fulfilled_zero. intros r Hr <-.
    destruct (fulfilled_stored _ _ _ Hinv r Hr) as [Hnew _]. congruence.
Qed.

Lemma poisoned_exec (e : failure) (acts : list action) (self : authenticator) :
  chain self = Some e → running self = None →
  let after := exec hash acts self in
  db after = db self ∧ chain after = Some e ∧ running after = None
  ∧ ∃ later, settled after = (settled self ++ later)%list
             ∧ Forall (λ x, x.2 = Err e) later.
Proof.
  intros Hchain Hrun. induction acts as [|a acts IH] using rev_ind.
  - repeat split; [done..|]. exists []. by rewrite app_nil_r.
  - rewrite chain_exec_snoc. destruct IH as (Hdb & Hch & Hru & later & Hset & Herr).
    set (mid := exec hash acts self) in *.
    destruct a as [l p|salt fault|fault|l p]; simpl.
    + repeat split; [done..|]. by exists later.
    + rewrite Hru. destruct (waiting mid) as [|r rest] eqn:Hwait.
      { repeat split; [done..|]. by exists later. }
      rewrite Hch. unfold settle. simpl.
      repeat split; [done..|]. exists (later ++ [(r, Err e)])%list.
      rewrite Hset, app_assoc. split; [done|].
      apply Forall_app. split; [done|]. by apply Forall_singleton.
    + rewrite Hru. repeat split; [done..|]. by exists later.
    + repeat split; [done..|]. by exists later.
Qed.

(** Once a registration has been rejected, the chain stays rejected: the
    store is never written again, and every registration that settles later
    is rejected with the error of that first failure, without its callback
    being run, whatever its login. *)
Theorem rejection_poisons_chain (db0 : gmap string string)
    (acts acts' : list action) (r : request) (e : failure) :
  (r, Err e) ∈ settled (exec hash acts (init db0)) →
  db (exec hash (acts ++ acts') (init db0)) = db (exec hash acts (init db0))
  ∧ ∃ later,
      settled (exec hash (acts ++ acts') (init db0))
      = (settled (exec hash acts (init db0)) ++ later)%list
      ∧ Forall (λ x, x.2 = Err e) later.
Proof.
  intros Hr. pose proof (reachable_invariant_exec db0 acts) as Hinv.
  set (self := exec hash acts (init db0)) in *.
  assert (chain self = Some e) as Hchain.
  { destruct (chain self) as [e'|] eqn:Hch.
    - destruct (chain_rejected _ _ _ Hinv e' Hch)
        as (oks & errs & Hset & Hoks & _ & Herrs).
      rewrite Hset in Hr. apply elem_of_app in Hr as [Hr|Hr].
      + rewrite Forall_forall in Hoks. by apply Hoks in Hr.
      + rewrite Forall_forall in Herrs. apply Herrs in Hr. simpl in Hr.
        congruence.
    - by apply (chain_fulfilled _ _ _ Hinv Hch) in Hr. }
  assert (running self = None) as Hrun.
  { destruct (running self) as [x|] eqn:Hx; [|done].
    apply (running_unpoisoned _ _ _ Hinv) in Hx. congruence. }
  rewrite exec_app. fold self.
  destruct (poisoned_exec e acts' self Hchain Hrun) as (Hdb & _ & _ & Hlater).
  by split.
Qed.

Lemma call_order_step (a : action) (self : authenticator) :
  ((fst <$> settled (step hash a self))
     ++ option_list (fst <$> running (step hash a self))
     ++ waiting (step hash a self)
   = ((fst <$> settled self) ++ option_list (fst <$> running self)
        ++ waiting self)
     ++ match a with Register l p => [Request l p] | _ => [] end)%list.
Proof.
  destruct a as [l p|salt fault|fault|l p]; simpl.
  - by rewrite !app_assoc.
  - rewrite app_nil_r. destruct (running self) as [x|] eqn:Hrun; [by rewrite Hrun|].
    destruct (waiting self) as [|r rest] eqn:Hwait; [by rewrite Hrun, Hwait|].
    assert (∀ res, ((fst <$> settled (settle r res self))
              ++ option_list (fst <$> running (settle r res self))
              ++ waiting (settle r res self)
            = (fst <$> settled self) ++ r :: rest)%list) as Hsettle.
    { intros res. unfold settle. simpl. rewrite Hwait, fmap_app. simpl.
      by rewrite <-app_assoc. }
    destruct (chain self); [by rewrite Hsettle|].
    destruct fault; [by rewrite Hsettle|].
    destruct (db self !! userKey (login r)); [by rewrite Hsettle|]. done.
  - rewrite app_nil_r. destruct (running self) as [[r h]|] eqn:Hrun;
      [|by rewrite Hrun].
    destruct fault; simpl; rewrite fmap_app; simpl; by rewrite <-app_assoc.
  - by rewrite app_nil_r.
Qed.

(** The promises returned by [register] settle in the order of the calls:
    the settled registrations, then the running one, then the waiting ones
    are the calls in call order. *)
Theorem registrations_settle_in_call_order (db0 : gmap string string)
    (acts : list action) :
  let self := exec hash acts (init db0) in
  ((fst <$> settled self) ++ option_list (fst <$> running self) ++ waiting self)%list
  = calls acts.
Proof.
  simpl. induction acts as [|a acts IH] using rev_ind; [done|].
  rewrite chain_exec_snoc, call_order_step, IH. unfold calls. rewrite bind_app. simpl.
  by rewrite app_nil_r.
Qed.

(** When [bcrypt.compare] accepts a password against every hash of it, a
    fulfilled registration can authenticate from then on with its login and
    password, in every later state; and a password that [bcrypt.compare]
    refuses against every hash of the registered one is rejected as
    invalid. *)
Theorem registered_user_authenticates (db0 : gmap string string)
    (acts : list action) (r : request) :
  (∀ salt p, compare p (hash salt p) = true) →
  (r, Ok) ∈ settled (exec hash acts (init db0)) →
  authenticate compare (login r) (password r) (exec hash acts (init db0)) = Ok
  ∧ ∀ p, (∀ salt, compare p (hash salt (password r)) = false) →
      authenticate compare (login r) p (exec hash acts (init db0))
      = Err PasswordInvalid.
Proof.
  intros Hlaw Hr. pose proof (reachable_invariant_exec db0 acts) as Hinv.
  destruct (fulfilled_stored _ _ _ Hinv r Hr) as [_ [salt Hdb]].
  unfold authenticate. rewrite Hdb. split.
  - by rewrite Hlaw.
  - intros p Hp. by rewrite Hp.
Qed.


(** ** Registrations one after the other *)









End facts.

Example duplicate_blocks_later_registrations :
  let acts := [Register "amy" "pw1"; Register "amy" "pw2"; Register "bob" "pw3";
               Start "s1" None; Put None; Start "s2" None; Start "s3" None] in
  let self := exec (λ salt p, salt ++ p) acts (init ∅) in
  settled self
  = [(Request "amy" "pw1", Ok);
     (Request "amy" "pw2", Err UserAlreadyExists);
     (Request "bob" "pw3", Err UserAlreadyExists)]
  ∧ db self !! userKey "bob" = None.
Proof. by vm_compute. Qed.

Lemma stored_hash_never_changes_witness :
  let hash := λ salt p : string, salt ++ p in
  let acts := [Register "amy" "pw1"; Start "s1" None; Put None] in
  let acts' := [Register "amy" "pw2"; Start "s2" None; Put None] in
  db (exec hash acts (init ∅)) !! userKey "amy" = Some "s1pw1"
  ∧ db (exec hash (acts ++ acts') (init ∅)) !! userKey "amy" = Some "s1pw1".
Proof.
  split; [by vm_compute|].
  apply (stored_hash_never_changes (λ salt p : string, salt ++ p) ∅
           [Register "amy" "pw1"; Start "s1" None; Put None]
           [Register "amy" "pw2"; Start "s2" None; Put None]).
  by vm_compute.
Defined.

Lemma rejection_poisons_chain_witness :
  let hash := λ salt p : string, salt ++ p in
  let acts := [Register "amy" "pw1"; Register "amy" "pw2";
               Start "s1" None; Put None; Start "s2" None] in
  let acts' := [Register "bob" "pw3"; Start "s3" None; Put None] in
  (Request "amy" "pw2", Err UserAlreadyExists) ∈ settled (exec hash acts (init ∅))
  ∧ db (exec hash (acts ++ acts') (init ∅)) = db (exec hash acts (init ∅))
  ∧ ∃ later,
      settled (exec hash (acts ++ acts') (init ∅))
      = (settled (exec hash acts (init ∅)) ++ later)%list
      ∧ Forall (λ x, x.2 = Err UserAlreadyExists) later.
Proof.
  assert ((Request "amy" "pw2", Err UserAlreadyExists)
            ∈ settled (exec (λ salt p : string, salt ++ p)
                [Register "amy" "pw1"; Register "amy" "pw2";
                 Start "s1" None; Put None; Start "s2" None] (init ∅)))
    as Hin by (vm_compute; apply list_elem_of_further, list_elem_of_here).
  split; [done|].
  exact (rejection_poisons_chain (λ salt p : string, salt ++ p) ∅
           [Register "amy" "pw1"; Register "amy" "pw2";
            Start "s1" None; Put None; Start "s2" None]
           [Register "bob" "pw3"; Start "s3" None; Put None]
           (Request "amy" "pw2") UserAlreadyExists Hin).
Defined.

Lemma registered_user_authenticates_witness :
  let hash := λ salt p : string, p in
  let compare := String.eqb in
  let acts := [Register "amy" "pw1"; Start "s1" None; Put None] in
  (∀ salt p, compare p (hash salt p) = true)
  ∧ (Request "amy" "pw1", Ok) ∈ settled (exec hash acts (init ∅))
  ∧ authenticate compare "amy" "pw1" (exec hash acts (init ∅)) = Ok
  ∧ ∀ p, (∀ salt : string, compare p (hash salt "pw1") = false) →
      authenticate compare "amy" p (exec hash acts (init ∅)) = Err PasswordInvalid.
Proof.
  assert ((Request "amy" "pw1", Ok)
            ∈ settled (exec (λ salt p : string, p)
                [Register "amy" "pw1"; Start "s1" None; Put None] (init ∅)))
    as Hin by (vm_compute; apply list_elem_of_here).
  split; [intros salt p; apply String.eqb_refl|]. split; [done|].
  exact (registered_user_authenticates (λ salt p : string, p) String.eqb ∅
           [Register "amy" "pw1"; Start "s1" None; Put None]
           (Request "amy" "pw1")
           (λ salt p, String.eqb_refl p) Hin).
Defined.

End LevelAuthenticatorFacts.
(** * The command-line client: commands, credentials and chat *)

Module ChatClientFacts.

Import Stdlib.Strings.Ascii.
Import ChatClient.

Section facts.

Variable inherited : string → option (list string → option string).

Lemma split_space_spaceless (s : string) :
  spaceless s = true → split_space s = [s].
Proof.
  induction s as [|c s IH]; [done|]. simpl.
  intros [Hc Hs]%andb_true_iff. apply negb_true_iff in Hc. rewrite Hc.
  by rewrite IH.
Qed.

Lemma split_space_word (s t : string) :
  spaceless s = true → split_space (s ++ " " ++ t) = s :: split_space t.
Proof.
  induction s as [|c s IH]; [done|]. simpl.
  intros [Hc Hs]%andb_true_iff. apply negb_true_iff in Hc. rewrite Hc.
  by rewrite IH.
Qed.

(** [/login L P] and [/register L P], for a login and a password without
    spaces (the login may be empty): the credentials are stored as typed;
    [/login] emits them as [auth] only if the socket is connected, and
    [/register] emits [register] whether it is connected or not. *)
Theorem commands_take_credentials (L P : string) (status : clientStatus) :
  spaceless L = true → spaceless P = true →
  let entered := Some (Credentials (Some L) (Some P)) in
  let stored := ClientStatus (connected status) (authenticated status) entered in
  handleLine inherited ("/login " ++ L ++ " " ++ P) status
  = Outcome stored
      ((if connected status then [Emit "auth" (AuthPayload entered)] else [])
       ++ [Prompt]) Returns
  ∧ handleLine inherited ("/register " ++ L ++ " " ++ P) status
    = Outcome stored
        [Emit "register" (RegisterPayload (Some L) (Some P)); Prompt] Returns.
Proof.
  intros HL HP. split.
  - unfold handleLine, handleCommandLine.
    change (slice1 ("/login " ++ L ++ " " ++ P)) with ("login" ++ " " ++ (L ++ " " ++ P)).
    rewrite (split_space_word "login") by done.
    rewrite (split_space_word L), (split_space_spaceless P) by done.
    simpl. by destruct (connected status).
  - unfold handleLine, handleCommandLine.
    change (slice1 ("/register " ++ L ++ " " ++ P))
      with ("register" ++ " " ++ (L ++ " " ++ P)).
    rewrite (split_space_word "register") by done.
    by rewrite (split_space_word L), (split_space_spaceless P) by done.
Qed.

Lemma status_after_handleCommandLine (line : string) (status : clientStatus) :
  connected (status_after (handleCommandLine inherited line status))
    = connected status
  ∧ authenticated (status_after (handleCommandLine inherited line status))
    = authenticated status.
Proof.
  unfold handleCommandLine.
  repeat (destruct (String.eqb _ _); [done|]).
  destruct (inherited _) as [call|]; [|done]. by destruct (call _).
Qed.

Lemma status_after_handleLine (line : string) (status : clientStatus) :
  connected (status_after (handleLine inherited line status)) = connected status
  ∧ authenticated (status_after (handleLine inherited line status))
    = authenticated status.
Proof.
  unfold handleLine.
  set (tried := match line with
                | EmptyString => _ | String _ _ => _ end).
  assert (connected (status_after tried) = connected status
          ∧ authenticated (status_after tried) = authenticated status) as Htried.
  { unfold tried. destruct line as [|c line]; [done|].
    destruct (Ascii.ascii_dec c "/"%char) as [->|Hc].
    - apply status_after_handleCommandLine.
    - assert (match c with
              | "/"%char => handleCommandLine inherited (String c line) status
              | _ => handleChatLine (String c line) status
              end = handleChatLine (String c line) status) as ->.
      { destruct c as [[] [] [] [] [] [] [] []]; try done. }
      unfold handleChatLine. by destruct (authenticated status) eqn:Hauth. }
  by destruct (completed tried).
Qed.

Lemma authenticated_after_handle (i : input) (status : clientStatus) :
  authenticated (status_after (handle inherited i status)) =
    match i with
    | AuthReply (Success _) => true
    | Connect | Disconnected => false
    | _ => authenticated status
    end.
Proof.
  destruct i as [line| | |from body|r|r|l|l]; simpl; try done.
  - apply status_after_handleLine.
  - unfold onChat. destruct (credentials status); [|done].
    by destruct (bool_decide _).
  - by destruct r.
  - by destruct r.
Qed.

Lemma after_inputs_snoc (inputs : list input) (i : input) (status : clientStatus) :
  after_inputs inherited (inputs ++ [i]) status
  = status_after (handle inherited i (after_inputs inherited inputs status)).
Proof. unfold after_inputs. by rewrite fold_left_app. Qed.

Lemma credentials_after_socket_input (i : input) (status : clientStatus) :
  from_socket i = true →
  credentials (status_after (handle inherited i status)) = credentials status.
Proof.
  destruct i as [line| | |from body|r|r|l|l]; simpl; try done.
  - intros _. unfold onChat. destruct (credentials status) eqn:Hc; [|done].
    by destruct (bool_decide _).
  - by destruct r.
  - by destruct r.
Qed.

Lemma credentials_after_socket_inputs (inputs : list input)
    (status : clientStatus) :
  forallb from_socket inputs = true →
  credentials (after_inputs inherited inputs status) = credentials status.
Proof.
  induction inputs as [|i inputs IH] using rev_ind; [done|].
  rewrite forallb_app. simpl.
  intros [Hinputs [Hi _]%andb_true_iff]%andb_true_iff.
  rewrite after_inputs_snoc, credentials_after_socket_input by done.
  by apply IH.
Qed.

(** Once credentials are stored, events from the socket never change
    them.  So at the next connect, and after a successful registration while
    connected, the client sends exactly the stored credentials as [auth];
    and an incoming chat message never makes its handler throw. *)
Theorem stored_credentials_are_sent (c : credentials_t) (inputs : list input)
    (status : clientStatus) :
  credentials status = Some c → forallb from_socket inputs = true →
  let later := after_inputs inherited inputs status in
  credentials later = Some c
  ∧ outputs (onConnect later)
    = [WriteLine [(Some "yellow", "# Connected.")] [];
       Emit "auth" (AuthPayload (Some c))]
  ∧ (connected later = true → ∀ l,
       outputs (onRegister (Success l) later)
       = [WriteLine [(Some "yellow", "# Registered as %s.")] [Some l];
          Emit "auth" (AuthPayload (Some c))])
  ∧ ∀ from body, completed (onChat from body later) = Returns.
Proof.
  intros Hc Hinputs later.
  assert (credentials later = Some c) as Hlater.
  { unfold later. by rewrite credentials_after_socket_inputs. }
  split; [done|]. split; [|split].
  - unfold onConnect, authenticateClient. simpl. by rewrite Hlater.
  - intros Hconn l. unfold onRegister, authenticateClient.
    by rewrite Hconn, Hlater.
  - intros from body. unfold onChat. rewrite Hlater.
    by destruct (bool_decide _).
Qed.

(** The [authenticated] flag says that a successful [auth] reply has
    arrived and that the socket has neither connected nor disconnected
    since. *)
Lemma authenticated_after_inputs (inputs : list input) :
  authenticated (after_inputs inherited inputs initialStatus) = true ↔
  ∃ pre l post, inputs = (pre ++ AuthReply (Success l) :: post)%list
    ∧ Forall (λ i, i ≠ Connect ∧ i ≠ Disconnected) post.
Proof.
  induction inputs as [|i inputs IH] using rev_ind.
  - split; [done|]. intros (pre & l & post & Heq & _). by destruct pre.
  - rewrite after_inputs_snoc, authenticated_after_handle.
    assert ((∃ pre l post, (inputs ++ [i] = pre ++ AuthReply (Success l) :: post)%list
               ∧ Forall (λ i, i ≠ Connect ∧ i ≠ Disconnected) post)
            ↔ (∃ l, i = AuthReply (Success l))
              ∨ ((i ≠ Connect ∧ i ≠ Disconnected)
                 ∧ ∃ pre l post, inputs = (pre ++ AuthReply (Success l) :: post)%list
                     ∧ Forall (λ i, i ≠ Connect ∧ i ≠ Disconnected) post))
      as ->.
    { split.
      - intros (pre & l & post & Heq & Hpost).
        destruct post as [|j post _] using rev_ind.
        + apply app_inj_tail in Heq as [_ ->]. left. by exists l.
        + right. rewrite app_comm_cons, app_assoc in Heq.
          apply app_inj_tail in Heq as [-> ->].
          apply Forall_app in Hpost as [Hpost Hj%Forall_inv].
          split; [done|]. by exists pre, l, post.
      - intros [[l ->]|[Hi (pre & l & post & -> & Hpost)]].
        + exists inputs, l, []. by split.
        + exists pre, l, (post ++ [i])%list. split.
          * by rewrite <-app_assoc.
          * apply Forall_app. split; [done|]. by apply Forall_singleton. }
    rewrite <-IH.
    destruct i as [line| | |from body|[l|message]|r|l|l];
      try (split; [intros H; right; by split|by intros [[l' [=]]|[_ H]]]).
    + split; [done|]. intros [[l [=]]|[[H _] _]]. by destruct H.
    + split; [done|]. intros [[l [=]]|[[_ H] _]]. by destruct H.
    + split; [intros _; left; by exists l|done].
Qed.

(** The client emits a chat event only for a non-empty line that does not
    start with a slash, with that line as body, and only if a successful
    [auth] reply has arrived and the socket has neither connected nor
    disconnected since. *)
Theorem chat_needs_confirmed_login (inputs : list input) (line : string)
    (data : payload) :
  Emit "chat" data
    ∈ outputs (handleLine inherited line
                 (after_inputs inherited inputs initialStatus)) →
  data = ChatPayload line
  ∧ (∃ c rest, line = String c rest ∧ c ≠ "/"%char)
  ∧ ∃ pre l post, inputs = (pre ++ AuthReply (Success l) :: post)%list
      ∧ Forall (λ i, i ≠ Connect ∧ i ≠ Disconnected) post.
Proof.
  set (status := after_inputs inherited inputs initialStatus).
  intros Hemit.
  destruct line as [|c rest].
  { apply list_elem_of_singleton in Hemit. done. }
  destruct (Ascii.ascii_dec c "/"%char) as [->|Hc].
  - exfalso. unfold handleLine, handleCommandLine in Hemit.
    set (parts := split_space _) in Hemit.
    destruct (String.eqb (hd EmptyString parts) "help").
    { simpl in Hemit. repeat (apply elem_of_cons in Hemit as [[=]|Hemit]).
      by apply elem_of_nil in Hemit. }
    destruct (String.eqb (hd EmptyString parts) "login").
    { simpl in Hemit. destruct (connected status); simpl in Hemit;
        repeat (apply elem_of_cons in Hemit as [[=]|Hemit]);
        by apply elem_of_nil in Hemit. }
    destruct (String.eqb (hd EmptyString parts) "register").
    { simpl in Hemit. repeat (apply elem_of_cons in Hemit as [[=]|Hemit]).
      by apply elem_of_nil in Hemit. }
    destruct (String.eqb (hd EmptyString parts) "quit").
    { simpl in Hemit. repeat (apply elem_of_cons in Hemit as [[=]|Hemit]).
      by apply elem_of_nil in Hemit. }
    destruct (inherited _) as [call|]; [destruct (call _)|]; simpl in Hemit;
      repeat (apply elem_of_cons in Hemit as [[=]|Hemit]);
      by apply elem_of_nil in Hemit.
  - assert (handleLine inherited (String c rest) status
            = let tried := handleChatLine (String c rest) status in
              Outcome (status_after tried) (outputs tried ++ [Prompt]) Returns)
      as Hline.
    { unfold handleLine.
      assert (match c with
              | "/"%char => handleCommandLine inherited (String c rest) status
              | _ => handleChatLine (String c rest) status
              end = handleChatLine (String c rest) status) as ->.
      { destruct c as [[] [] [] [] [] [] [] []]; try done. }
      unfold handleChatLine. by destruct (authenticated status). }
    rewrite Hline in Hemit. unfold handleChatLine in Hemit.
    destruct (authenticated status) eqn:Hauth; simpl in Hemit.
    + apply elem_of_cons in Hemit as [[= ->]|Hemit];
        [|by apply list_elem_of_singleton in Hemit].
      split; [done|]. split; [by exists c, rest|].
      by apply authenticated_after_inputs.
    + repeat (apply elem_of_cons in Hemit as [[=]|Hemit]).
      by apply elem_of_nil in Hemit.
Qed.

End facts.

Lemma commands_take_credentials_witness :
  let inherited := λ _ : string, None in
  let status := ClientStatus true false None in
  let entered := Some (Credentials (Some "amy") (Some "pw")) in
  spaceless "amy" = true ∧ spaceless "pw" = true
  ∧ handleLine inherited "/login amy pw" status
    = Outcome (ClientStatus true false entered)
        [Emit "auth" (AuthPayload entered); Prompt] Returns
  ∧ handleLine inherited "/register amy pw" status
    = Outcome (ClientStatus true false entered)
        [Emit "register" (RegisterPayload (Some "amy") (Some "pw")); Prompt]
        Returns.
Proof.
  split; [done|]. split; [done|].
  exact (commands_take_credentials (λ _ : string, None) "amy" "pw"
           (ClientStatus true false None) eq_refl eq_refl).
Defined.

Lemma stored_credentials_are_sent_witness :
  let inherited := λ _ : string, None in
  let c := Credentials (Some "amy") (Some "pw") in
  let status := ClientStatus false false (Some c) in
  let inputs := [Connect; AuthReply (Success "amy"); Disconnected] in
  let later := after_inputs inherited inputs status in
  credentials status = Some c ∧ forallb from_socket inputs = true
  ∧ credentials later = Some c
  ∧ outputs (onConnect later)
    = [WriteLine [(Some "yellow", "# Connected.")] [];
       Emit "auth" (AuthPayload (Some c))]
  ∧ (connected later = true → ∀ l,
       outputs (onRegister (Success l) later)
       = [WriteLine [(Some "yellow", "# Registered as %s.")] [Some l];
          Emit "auth" (AuthPayload (Some c))])
  ∧ ∀ from body, completed (onChat from body later) = Returns.
Proof.
  split; [done|]. split; [done|].
  exact (stored_credentials_are_sent (λ _ : string, None)
           (Credentials (Some "amy") (Some "pw"))
           [Connect; AuthReply (Success "amy"); Disconnected]
           (ClientStatus false false (Some (Credentials (Some "amy") (Some "pw"))))
           eq_refl eq_refl).
Defined.

Lemma chat_needs_confirmed_login_witness :
  let inherited := λ _ : string, None in
  let inputs := [Connect; Line "/login amy pw"; AuthReply (Success "amy")] in
  Emit "chat" (ChatPayload "hi")
    ∈ outputs (handleLine inherited "hi" (after_inputs inherited inputs initialStatus))
  ∧ ChatPayload "hi" = ChatPayload "hi"
  ∧ (∃ c rest, "hi" = String c rest ∧ c ≠ "/"%char)
  ∧ ∃ pre l post, inputs = (pre ++ AuthReply (Success l) :: post)%list
      ∧ Forall (λ i, i ≠ Connect ∧ i ≠ Disconnected) post.
Proof.
  assert (Emit "chat" (ChatPayload "hi")
            ∈ outputs (handleLine (λ _ : string, None) "hi"
                (after_inputs (λ _ : string, None)
                   [Connect; Line "/login amy pw"; AuthReply (Success "amy")]
                   initialStatus)))
    as Hin by (vm_compute; apply list_elem_of_here).
  split; [done|].
  exact (chat_needs_confirmed_login (λ _ : string, None)
           [Connect; Line "/login amy pw"; AuthReply (Success "amy")]
           "hi" (ChatPayload "hi") Hin).
Defined.

End ChatClientFacts.
